(** * Verification of the calculator's expression pipeline

    A shallow embedding of [src/calculator.py]: the character whitelist
    [ALLOWED_CHARS_RE], the normaliser [Calculator._safe_prepare], the
    restricted evaluator [Calculator._safe_eval] with the environment
    [EVAL_GLOBALS] it hands to Python's [eval], and the commit action
    [Calculator._eval].

    Python strings are modelled as lists of characters whose code points lie
    below 256 (the Latin-1 range), written here as Rocq strings.  Integers are
    [Z], floats are IEEE binary64 numbers ([PrimFloat.float]). *)

From Stdlib Require Import List String Ascii Bool Arith ZArith QArith Lia.
From Stdlib Require Import Floats Uint63 DecimalString.
Import ListNotations.

Local Open Scope list_scope.
Set Warnings "-register-all".

(** ** Text *)

Definition text := list ascii.

Definition chars (s : string) : text := list_ascii_of_string s.
Definition str (t : text) : string := string_of_list_ascii t.

Definition code (c : ascii) : N := N_of_ascii c.

Definition in_range (lo hi : N) (c : ascii) : bool :=
  ((lo <=? code c) && (code c <=? hi))%N.

(** [0-9]; over code points below 256 this is also the regex class [\d]. *)
Definition is_digit (c : ascii) : bool := in_range 48 57 c.

(** [a-zA-Z] *)
Definition is_letter (c : ascii) : bool := in_range 97 122 c || in_range 65 90 c.

(** [str.isspace] and the regex class [\s] on code points below 256:
    TAB, LF, VT, FF, CR, the separators 0x1c-0x1f, space, NEL and NBSP. *)
Definition is_space (c : ascii) : bool :=
  in_range 9 13 c || in_range 28 32 c || (code c =? 133)%N || (code c =? 160)%N.

(** ** [str.strip], [str.replace] and the [in] operator on strings *)

Fixpoint lstrip (s : text) : text :=
  match s with
  | c :: t => if is_space c then lstrip t else s
  | [] => []
  end.

Definition rstrip (s : text) : text := rev (lstrip (rev s)).

Definition strip (s : text) : text := rstrip (lstrip s).

Fixpoint starts_with (p s : text) : bool :=
  match p, s with
  | [], _ => true
  | a :: p', b :: s' => Ascii.eqb a b && starts_with p' s'
  | _ :: _, [] => false
  end.

(** [needle in hay] *)
Fixpoint contains (needle hay : text) : bool :=
  starts_with needle hay ||
  match hay with
  | [] => false
  | _ :: t => contains needle t
  end.

(** [expr.replace('^', '**')]: the pattern is one character long, so every
    occurrence is replaced independently. *)
Definition replace_caret (s : text) : text :=
  flat_map (fun c => if Ascii.eqb c "^" then chars "**" else [c]) s.

(** ** Regular expressions

    The two patterns of the source are run by a backtracking matcher, as
    Python's [re] does: a matcher returns every way of matching a prefix of
    its input, the preferred one first, each as (matched text, rest). *)

Definition matcher := text -> list (text * text).

Definition m_char (p : ascii -> bool) : matcher :=
  fun s => match s with
           | c :: r => if p c then [([c], r)] else []
           | [] => []
           end.

Definition m_seq (m1 m2 : matcher) : matcher :=
  fun s => flat_map (fun '(a, r) => map (fun '(b, r') => (a ++ b, r')) (m2 r)) (m1 s).

(** Greedy [m?] *)
Definition m_opt (m : matcher) : matcher :=
  fun s => m s ++ [([], s)].

(** Greedy [c*] for a character class *)
Fixpoint m_star (p : ascii -> bool) (s : text) : list (text * text) :=
  match s with
  | c :: r => if p c
              then map (fun '(a, r') => (c :: a, r')) (m_star p r) ++ [([], s)]
              else [([], s)]
  | [] => [([], [])]
  end.

(** Greedy [c+] *)
Definition m_plus (p : ascii -> bool) : matcher := m_seq (m_char p) (m_star p).

Definition is_char (a : ascii) (c : ascii) : bool := Ascii.eqb a c.

(** *** [ALLOWED_CHARS_RE = re.compile(r'^[0-9+\-*/().% \t\n,a-zA-Z_]*$')] *)

Definition allowed_class (c : ascii) : bool :=
  is_digit c
  || existsb (Ascii.eqb c) (chars "+-*/().% ")
  || (code c =? 9)%N || (code c =? 10)%N
  || Ascii.eqb c ","
  || is_letter c
  || Ascii.eqb c "_".

(** The whitelist as the specification words it: digits, [+ - * / ( ) . % ,]
    space, and ASCII letters. *)
Definition spec_whitelist (c : ascii) : bool :=
  is_digit c || existsb (Ascii.eqb c) (chars "+-*/().%, ") || is_letter c.

(** [$] without [re.MULTILINE]: at the end of the string, or just before a
    newline that is the last character. *)
Definition at_dollar (s : text) : bool :=
  match s with
  | [] => true
  | [c] => (code c =? 10)%N
  | _ => false
  end.

(** [ALLOWED_CHARS_RE.match(expr)] is not [None]: some way of matching
    [[...]*] from the start leaves the matcher at a [$] position. *)
Definition ALLOWED_CHARS_RE_match (expr : text) : bool :=
  existsb (fun '(_, r) => at_dollar r) (m_star allowed_class expr).

(** *** [re.sub(r'(\d+(\.\d+)?)\s*%', r'(\1/100)', expr)] *)

(** Group 1: [\d+(\.\d+)?] *)
Definition m_literal : matcher :=
  m_seq (m_plus is_digit) (m_opt (m_seq (m_char (is_char ".")) (m_plus is_digit))).

(** [\s*%] *)
Definition m_percent_tail : matcher :=
  m_seq (m_star is_space) (m_char (is_char "%")).

(** The first successful match of the whole pattern at the start of [s]:
    (text of group 1, text after the match). *)
Definition percent_match (s : text) : option (text * text) :=
  hd_error
    (flat_map (fun '(g, r) => map (fun '(_, r') => (g, r')) (m_percent_tail r))
              (m_literal s)).

(** [re.sub] scans from the left; at each position it either replaces the
    match found there and resumes after it, or copies one character.  The
    fuel bounds the number of steps; the length of the subject is enough. *)
Fixpoint sub_percent_fuel (fuel : nat) (s : text) : text :=
  match fuel with
  | O => s
  | S fuel' =>
      match s with
      | [] => []
      | c :: t =>
          match percent_match s with
          | Some (g, r) => chars "(" ++ g ++ chars "/100)" ++ sub_percent_fuel fuel' r
          | None => c :: sub_percent_fuel fuel' t
          end
      end
  end.

Definition sub_percent (s : text) : text := sub_percent_fuel (List.length s) s.

(** ** [Calculator._safe_prepare] *)

Definition safe_prepare (expr : text) : text :=
  let expr := sub_percent expr in
  let expr := replace_caret expr in
  expr.

Definition _safe_prepare (expr : string) : string := str (safe_prepare (chars expr)).


(** ** Python values, exceptions and results *)

(** The objects that [SAFE_MATH] binds, by identity: [log] and [ln] are the
    same function object [math.log]. *)
Inductive builtin :=
| math_sin | math_cos | math_tan | math_asin | math_acos | math_atan
| math_sqrt | math_log | math_log10 | math_exp
| builtin_pow | builtin_abs | builtin_round
| type_int | type_float.

Inductive value :=
| VInt (z : Z)
| VFloat (f : float)
| VBuiltin (b : builtin)
| VMethod (self : value) (name : string)
| VDict (items : list (string * value)).

(** A dict with string keys, in insertion order. *)
Definition dict := list (string * value).

Fixpoint dict_get (d : dict) (k : string) : option value :=
  match d with
  | [] => None
  | (k', v) :: d' => if String.eqb k' k then Some v else dict_get d' k
  end.

Fixpoint dict_set (d : dict) (k : string) (v : value) : dict :=
  match d with
  | [] => [(k, v)]
  | (k', v') :: d' => if String.eqb k' k then (k', v) :: d' else (k', v') :: dict_set d' k v
  end.

(** [d.update(other)] *)
Definition dict_update (d other : dict) : dict :=
  fold_left (fun acc '(k, v) => dict_set acc k v) other d.

Inductive exn :=
| ValueError (msg : string)
| SyntaxError
| NameError
| TypeError
| ZeroDivisionError
| OverflowError
| AttributeError.

Inductive outcome (A : Type) :=
| Return (a : A)
| Raise (e : exn).
Arguments Return {A} a.
Arguments Raise {A} e.

(** A computation returns, raises, or ([None]) steps outside the part of
    Python that this development models. *)
Definition M (A : Type) : Type := option (outcome A).

Definition ret {A} (a : A) : M A := Some (Return a).
Definition raise {A} (e : exn) : M A := Some (Raise e).
Definition unmodelled {A} : M A := None.

Definition bind {A B} (m : M A) (k : A -> M B) : M B :=
  match m with
  | Some (Return a) => k a
  | Some (Raise e) => Some (Raise e)
  | None => None
  end.

(** [try: m  except Exception as e: handler e]; every exception class
    modelled here derives from [Exception]. *)
Definition try_except {A} (m : M A) (handler : exn -> M A) : M A :=
  match m with
  | Some (Raise e) => handler e
  | _ => m
  end.

Notation "x <- m ;; k" := (bind m (fun x => k))
  (at level 61, m at next level, right associativity).
Notation "' p <- m ;; k" := (bind m (fun p => k))
  (at level 61, p pattern, m at next level, right associativity).

(** ** The evaluation environment *)

Definition math_pi : float := 0x1.921fb54442d18p+1%float.
Definition math_e : float := 0x1.5bf0a8b145769p+1%float.

Definition SAFE_MATH : dict :=
  [ ("sin", VBuiltin math_sin);
    ("cos", VBuiltin math_cos);
    ("tan", VBuiltin math_tan);
    ("asin", VBuiltin math_asin);
    ("acos", VBuiltin math_acos);
    ("atan", VBuiltin math_atan);
    ("sqrt", VBuiltin math_sqrt);
    ("pow", VBuiltin builtin_pow);
    ("log", VBuiltin math_log);
    ("ln", VBuiltin math_log);
    ("log10", VBuiltin math_log10);
    ("exp", VBuiltin math_exp);
    ("pi", VFloat math_pi);
    ("e", VFloat math_e);
    ("abs", VBuiltin builtin_abs);
    ("round", VBuiltin builtin_round);
    ("int", VBuiltin type_int);
    ("float", VBuiltin type_float) ]%string.

Definition EVAL_GLOBALS : dict :=
  dict_update [("__builtins__"%string, VDict [])] SAFE_MATH.

(** ** Python's [eval] on the fragment of expressions that the model covers

    [eval(source, globals, locals)] tokenises and parses the whole source
    (any syntax error is raised before anything runs) and then evaluates the
    tree.  The model covers sources over the alphabet of the whitelist except
    the newline: decimal integer and point-float literals, names,
    [+ - * / // % **], unary [+ -], parentheses, attribute references and
    calls with positional arguments.  Keywords, tuples, starred arguments,
    literals with exponents, prefixes, suffixes or digit separators, and the
    interpreter's resource limits (nesting depth, recursion limit, memory, the
    digit limit of [str]) are outside it. *)

Inductive op :=
| PLUS | MINUS | STAR | SLASH | DOUBLESLASH | PERCENT | DOUBLESTAR
| LPAR | RPAR | COMMA | DOT | ELLIPSIS.

Inductive token :=
| T_INT (z : Z)
| T_FLOAT (f : float)
| T_NAME (id : string)
| T_OP (o : op).

(** *** Numbers *)

Definition digit_value (c : ascii) : Z := Z.of_N (code c) - 48.

Definition Z_of_digits (ds : text) : Z :=
  fold_left (fun acc c => 10 * acc + digit_value c)%Z ds 0%Z.

Definition two53 : Z := 9007199254740992.

(** [float(z)] for an integer that a double represents exactly. *)
Definition float_of_Z (z : Z) : option float :=
  if (Z.abs z <=? two53)%Z
  then let m := PrimFloat.of_uint63 (Uint63.of_Z (Z.abs z)) in
       Some (if (z <? 0)%Z then PrimFloat.opp m else m)
  else None.

(** [a / b] on integers, correctly rounded; only the case where both convert
    exactly, in which the quotient of the two doubles is that result. *)
Definition int_true_divide (a b : Z) : option float :=
  match float_of_Z a, float_of_Z b with
  | Some x, Some y => Some (PrimFloat.div x y)
  | _, _ => None
  end.

(** The value of the literal [i.f]: the digits as an integer over a power of
    ten, correctly rounded. *)
Definition float_literal (i f : text) : option float :=
  if (List.length f <=? 15)%nat
  then int_true_divide (Z_of_digits (i ++ f)) (10 ^ Z.of_nat (List.length f))
  else None.

(** A decimal integer literal is all zeros or starts with a nonzero digit. *)
Definition decimal_ok (ds : text) : bool :=
  forallb (Ascii.eqb "0") ds ||
  match ds with
  | c :: _ => negb (Ascii.eqb "0" c)
  | [] => false
  end.

(** *** Tokens *)

Definition keywords : list string :=
  [ "False"; "None"; "True"; "and"; "as"; "assert"; "async"; "await";
    "break"; "class"; "continue"; "def"; "del"; "elif"; "else"; "except";
    "finally"; "for"; "from"; "global"; "if"; "import"; "in"; "is";
    "lambda"; "nonlocal"; "not"; "or"; "pass"; "raise"; "return"; "try";
    "while"; "with"; "yield" ]%string.

Definition is_keyword (id : text) : bool := existsb (String.eqb (str id)) keywords.

Definition is_name_start (c : ascii) : bool := is_letter c || Ascii.eqb c "_".
Definition is_name_char (c : ascii) : bool := is_name_start c || is_digit c.
Definition is_blank (c : ascii) : bool := Ascii.eqb c " " || (code c =? 9)%N.

Inductive lex_state :=
| LStart
| LInt (ds : text)
| LFrac (i f : text)
| LName (id : text)
| LStar
| LSlash
| LDot
| LDot2.

(** The token that ends when the scanner leaves state [st]. *)
Definition flush (st : lex_state) : M (list token) :=
  match st with
  | LStart => ret []
  | LInt ds => if decimal_ok ds then ret [T_INT (Z_of_digits ds)] else raise SyntaxError
  | LFrac i f => match float_literal i f with
                 | Some x => ret [T_FLOAT x]
                 | None => unmodelled
                 end
  | LName id => if is_keyword id then unmodelled else ret [T_NAME (str id)]
  | LStar => ret [T_OP STAR]
  | LSlash => ret [T_OP SLASH]
  | LDot => ret [T_OP DOT]
  | LDot2 => ret [T_OP DOT; T_OP DOT]
  end.

(** Reading [c] with no token in progress. *)
Definition start (c : ascii) : M (list token * lex_state) :=
  if is_digit c then ret ([], LInt [c])
  else if is_name_start c then ret ([], LName [c])
  else if is_blank c then ret ([], LStart)
  else if Ascii.eqb c "*" then ret ([], LStar)
  else if Ascii.eqb c "/" then ret ([], LSlash)
  else if Ascii.eqb c "." then ret ([], LDot)
  else if Ascii.eqb c "+" then ret ([T_OP PLUS], LStart)
  else if Ascii.eqb c "-" then ret ([T_OP MINUS], LStart)
  else if Ascii.eqb c "%" then ret ([T_OP PERCENT], LStart)
  else if Ascii.eqb c "(" then ret ([T_OP LPAR], LStart)
  else if Ascii.eqb c ")" then ret ([T_OP RPAR], LStart)
  else if Ascii.eqb c "," then ret ([T_OP COMMA], LStart)
  else unmodelled.

Definition flush_then_start (st : lex_state) (c : ascii) : M (list token * lex_state) :=
  done <- flush st ;;
  '(now, st') <- start c ;;
  ret (done ++ now, st').

(** One character: the tokens completed by it and the next state.  A letter
    or underscore glued to a number starts an exponent, a prefix, a suffix or
    a digit separator. *)
Definition step (st : lex_state) (c : ascii) : M (list token * lex_state) :=
  match st with
  | LStart => start c
  | LInt ds =>
      if is_digit c then ret ([], LInt (ds ++ [c]))
      else if Ascii.eqb c "." then ret ([], LFrac ds [])
      else if is_name_start c then unmodelled
      else flush_then_start st c
  | LFrac i f =>
      if is_digit c then ret ([], LFrac i (f ++ [c]))
      else if is_name_start c then unmodelled
      else flush_then_start st c
  | LName id =>
      if is_name_char c then ret ([], LName (id ++ [c]))
      else flush_then_start st c
  | LStar =>
      if Ascii.eqb c "*" then ret ([T_OP DOUBLESTAR], LStart)
      else flush_then_start st c
  | LSlash =>
      if Ascii.eqb c "/" then ret ([T_OP DOUBLESLASH], LStart)
      else flush_then_start st c
  | LDot =>
      if is_digit c then ret ([], LFrac [] [c])
      else if Ascii.eqb c "." then ret ([], LDot2)
      else flush_then_start st c
  | LDot2 =>
      if Ascii.eqb c "." then ret ([T_OP ELLIPSIS], LStart)
      else if is_digit c then ret ([T_OP DOT], LFrac [] [c])
      else flush_then_start st c
  end.

Fixpoint lex (st : lex_state) (s : text) : M (list token) :=
  match s with
  | [] => flush st
  | c :: s' =>
      '(now, st') <- step st c ;;
      later <- lex st' s' ;;
      ret (now ++ later)
  end.

Definition tokenize (source : text) : M (list token) := lex LStart source.

(** *** Syntax trees, named as in Python's [ast] module *)

Inductive unaryop := UAdd | USub.
Inductive operator := Add | Sub | Mult | Div | FloorDiv | Mod | Pow.

Inductive ast :=
| Constant (v : value)
| Name (id : string)
| UnaryOp (o : unaryop) (operand : ast)
| BinOp (left : ast) (o : operator) (right : ast)
| Attribute (obj : ast) (attr : string)
| Call (func : ast) (args : list ast).

(** *** The parser

    Recursive descent over the levels of Python's grammar:
<<
    sum:     term (('+' | '-') term)*
    term:    factor (('*' | '/' | '//' | '%') factor)*
    factor:  ('+' | '-') factor | power
    power:   primary ['**' factor]
    primary: atom ('.' NAME | '(' [sum (',' sum)* [',']] ')')*
    atom:    NAME | NUMBER | '(' sum ')'
>>
    Each function returns the tree and the tokens left.  Every call spends
    one unit of fuel; [parse] supplies six per token. *)

Definition sum_op (t : token) : option operator :=
  match t with
  | T_OP PLUS => Some Add
  | T_OP MINUS => Some Sub
  | _ => None
  end.

Definition term_op (t : token) : option operator :=
  match t with
  | T_OP STAR => Some Mult
  | T_OP SLASH => Some Div
  | T_OP DOUBLESLASH => Some FloorDiv
  | T_OP PERCENT => Some Mod
  | _ => None
  end.

Fixpoint parse_sum (fuel : nat) (ts : list token) {struct fuel} : M (ast * list token) :=
  match fuel with
  | O => unmodelled
  | S fuel =>
      '(l, ts) <- parse_term fuel ts ;;
      sum_rest fuel l ts
  end

with sum_rest (fuel : nat) (l : ast) (ts : list token) {struct fuel} : M (ast * list token) :=
  match fuel with
  | O => unmodelled
  | S fuel =>
      match ts with
      | t :: ts' =>
          match sum_op t with
          | Some o => '(r, ts'') <- parse_term fuel ts' ;;
                      sum_rest fuel (BinOp l o r) ts''
          | None => ret (l, ts)
          end
      | [] => ret (l, ts)
      end
  end

with parse_term (fuel : nat) (ts : list token) {struct fuel} : M (ast * list token) :=
  match fuel with
  | O => unmodelled
  | S fuel =>
      '(l, ts) <- parse_factor fuel ts ;;
      term_rest fuel l ts
  end

with term_rest (fuel : nat) (l : ast) (ts : list token) {struct fuel} : M (ast * list token) :=
  match fuel with
  | O => unmodelled
  | S fuel =>
      match ts with
      | t :: ts' =>
          match term_op t with
          | Some o => '(r, ts'') <- parse_factor fuel ts' ;;
                      term_rest fuel (BinOp l o r) ts''
          | None => ret (l, ts)
          end
      | [] => ret (l, ts)
      end
  end

with parse_factor (fuel : nat) (ts : list token) {struct fuel} : M (ast * list token) :=
  match fuel with
  | O => unmodelled
  | S fuel =>
      match ts with
      | T_OP PLUS :: ts' => '(e, ts'') <- parse_factor fuel ts' ;; ret (UnaryOp UAdd e, ts'')
      | T_OP MINUS :: ts' => '(e, ts'') <- parse_factor fuel ts' ;; ret (UnaryOp USub e, ts'')
      | _ => parse_power fuel ts
      end
  end

with parse_power (fuel : nat) (ts : list token) {struct fuel} : M (ast * list token) :=
  match fuel with
  | O => unmodelled
  | S fuel =>
      '(b, ts) <- parse_primary fuel ts ;;
      match ts with
      | T_OP DOUBLESTAR :: ts' => '(e, ts'') <- parse_factor fuel ts' ;; ret (BinOp b Pow e, ts'')
      | _ => ret (b, ts)
      end
  end

with parse_primary (fuel : nat) (ts : list token) {struct fuel} : M (ast * list token) :=
  match fuel with
  | O => unmodelled
  | S fuel =>
      match ts with
      | T_INT z :: ts' => trailers fuel (Constant (VInt z)) ts'
      | T_FLOAT f :: ts' => trailers fuel (Constant (VFloat f)) ts'
      | T_NAME id :: ts' => trailers fuel (Name id) ts'
      | T_OP LPAR :: T_OP RPAR :: _ => unmodelled                (* the empty tuple *)
      | T_OP LPAR :: ts' =>
          '(e, ts'') <- parse_sum fuel ts' ;;
          match ts'' with
          | T_OP RPAR :: ts''' => trailers fuel e ts'''
          | T_OP COMMA :: _ => unmodelled                        (* a tuple *)
          | _ => raise SyntaxError
          end
      | T_OP STAR :: _ | T_OP DOUBLESTAR :: _ => unmodelled      (* starred *)
      | T_OP ELLIPSIS :: _ => unmodelled                         (* the ellipsis *)
      | T_OP COMMA :: _ => unmodelled
      | _ => raise SyntaxError
      end
  end

with trailers (fuel : nat) (e : ast) (ts : list token) {struct fuel} : M (ast * list token) :=
  match fuel with
  | O => unmodelled
  | S fuel =>
      match ts with
      | T_OP DOT :: T_NAME attr :: ts' => trailers fuel (Attribute e attr) ts'
      | T_OP DOT :: _ => raise SyntaxError
      | T_OP LPAR :: T_OP RPAR :: ts' => trailers fuel (Call e []) ts'
      | T_OP LPAR :: ts' =>
          '(args, ts'') <- arguments fuel ts' ;;
          trailers fuel (Call e args) ts''
      | _ => ret (e, ts)
      end
  end

(** The arguments of a call after the first [(], up to and with the [)]. *)
with arguments (fuel : nat) (ts : list token) {struct fuel} : M (list ast * list token) :=
  match fuel with
  | O => unmodelled
  | S fuel =>
      '(a, ts') <- parse_sum fuel ts ;;
      match ts' with
      | T_OP RPAR :: ts'' => ret ([a], ts'')
      | T_OP COMMA :: T_OP RPAR :: ts'' => ret ([a], ts'')
      | T_OP COMMA :: ts'' =>
          '(more, ts''') <- arguments fuel ts'' ;;
          ret (a :: more, ts''')
      | _ => raise SyntaxError
      end
  end.

(** [eval_input: expressions NEWLINE* ENDMARKER] *)
Definition parse (ts : list token) : M ast :=
  '(e, rest) <- parse_sum (6 * List.length ts + 6) ts ;;
  match rest with
  | [] => ret e
  | T_OP COMMA :: _ => unmodelled                                (* a tuple *)
  | _ => raise SyntaxError
  end.

(** *** Evaluation *)

(** Name lookup: locals, then globals, then the builtins namespace that the
    globals carry under [__builtins__].  When that entry is missing or is not
    a dict the interpreter's own builtins module is consulted, which is
    outside the model. *)
Definition load_name (globals locals : dict) (id : string) : M value :=
  match dict_get locals id with
  | Some v => ret v
  | None =>
      match dict_get globals id with
      | Some v => ret v
      | None =>
          match dict_get globals "__builtins__" with
          | Some (VDict builtins) =>
              match dict_get builtins id with
              | Some v => ret v
              | None => raise NameError
              end
          | _ => unmodelled
          end
      end
  end.

Definition to_float (z : Z) : M float :=
  match float_of_Z z with
  | Some x => ret x
  | None => unmodelled
  end.

Definition int_binop (o : operator) (a b : Z) : M value :=
  match o with
  | Add => ret (VInt (a + b))
  | Sub => ret (VInt (a - b))
  | Mult => ret (VInt (a * b))
  | Div => if (b =? 0)%Z then raise ZeroDivisionError
           else match int_true_divide a b with
                | Some q => ret (VFloat q)
                | None => unmodelled
                end
  | FloorDiv => if (b =? 0)%Z then raise ZeroDivisionError else ret (VInt (a / b))
  | Mod => if (b =? 0)%Z then raise ZeroDivisionError else ret (VInt (a mod b))
  | Pow => if (0 <=? b)%Z then ret (VInt (a ^ b))
           else if (a =? 0)%Z then raise ZeroDivisionError
           else unmodelled
  end.

Definition float_binop (o : operator) (x y : float) : M value :=
  match o with
  | Add => ret (VFloat (x + y))
  | Sub => ret (VFloat (x - y))
  | Mult => ret (VFloat (x * y))
  | Div => if PrimFloat.eqb y 0 then raise ZeroDivisionError else ret (VFloat (x / y))
  | FloorDiv | Mod => if PrimFloat.eqb y 0 then raise ZeroDivisionError else unmodelled
  | Pow => unmodelled
  end.

Definition binary (o : operator) (a b : value) : M value :=
  match a, b with
  | VInt x, VInt y => int_binop o x y
  | VInt x, VFloat y => x' <- to_float x ;; float_binop o x' y
  | VFloat x, VInt y => y' <- to_float y ;; float_binop o x y'
  | VFloat x, VFloat y => float_binop o x y
  | _, _ => raise TypeError
  end.

Definition unary (o : unaryop) (v : value) : M value :=
  match v with
  | VInt z => ret (VInt (match o with UAdd => z | USub => - z end))
  | VFloat x => ret (VFloat (match o with UAdd => x | USub => PrimFloat.opp x end))
  | _ => raise TypeError
  end.

Definition bit_length (z : Z) : Z :=
  if (z =? 0)%Z then 0%Z else (Z.log2 (Z.abs z) + 1)%Z.

(** [obj.attr]; of the attributes of numbers only these are modelled. *)
Definition getattr (obj : value) (attr : string) : M value :=
  match obj with
  | VInt z =>
      if String.eqb attr "real" then ret (VInt z)
      else if String.eqb attr "imag" then ret (VInt 0)
      else if String.eqb attr "numerator" then ret (VInt z)
      else if String.eqb attr "denominator" then ret (VInt 1)
      else if String.eqb attr "bit_length" then ret (VMethod obj attr)
      else if String.eqb attr "conjugate" then ret (VMethod obj attr)
      else unmodelled
  | VFloat x =>
      if String.eqb attr "real" then ret (VFloat x)
      else if String.eqb attr "imag" then ret (VFloat 0)
      else unmodelled
  | _ => unmodelled
  end.

Definition call_builtin (b : builtin) (args : list value) : M value :=
  match b with
  | builtin_abs =>
      match args with
      | [VInt z] => ret (VInt (Z.abs z))
      | [VFloat x] => ret (VFloat (PrimFloat.abs x))
      | _ => raise TypeError
      end
  | builtin_pow =>
      match args with
      | [a; b] => binary Pow a b
      | [_; _; _] => unmodelled
      | _ => raise TypeError
      end
  | math_sqrt =>
      match args with
      | [v] =>
          x <- match v with
               | VInt z => to_float z
               | VFloat x => ret x
               | _ => raise TypeError
               end ;;
          if PrimFloat.is_nan x then ret (VFloat x)
          else if PrimFloat.ltb x 0 then raise (ValueError "math domain error")
          else ret (VFloat (PrimFloat.sqrt x))
      | _ => raise TypeError
      end
  | _ => unmodelled
  end.

Definition call (f : value) (args : list value) : M value :=
  match f with
  | VBuiltin b => call_builtin b args
  | VMethod (VInt z) name =>
      if String.eqb name "bit_length"
      then match args with [] => ret (VInt (bit_length z)) | _ => raise TypeError end
      else if String.eqb name "conjugate"
      then match args with [] => ret (VInt z) | _ => raise TypeError end
      else unmodelled
  | VMethod _ _ => unmodelled
  | VInt _ | VFloat _ | VDict _ => raise TypeError          (* not callable *)
  end.

Fixpoint eval_expr (globals locals : dict) (e : ast) : M value :=
  match e with
  | Constant v => ret v
  | Name id => load_name globals locals id
  | UnaryOp o a => v <- eval_expr globals locals a ;; unary o v
  | BinOp l o r =>
      a <- eval_expr globals locals l ;;
      b <- eval_expr globals locals r ;;
      binary o a b
  | Attribute obj attr => v <- eval_expr globals locals obj ;; getattr v attr
  | Call func args =>
      f <- eval_expr globals locals func ;;
      vs <- (fix eval_args (l : list ast) : M (list value) :=
               match l with
               | [] => ret []
               | a :: l' =>
                   v <- eval_expr globals locals a ;;
                   vs <- eval_args l' ;;
                   ret (v :: vs)
               end) args ;;
      call f vs
  end.

Definition modelled_char (c : ascii) : bool :=
  allowed_class c && negb (code c =? 10)%N.

(** [eval(source, globals, locals)] *)
Definition py_eval (source : text) (globals locals : dict) : M value :=
  if forallb modelled_char source
  then ts <- tokenize source ;;
       e <- parse ts ;;
       eval_expr globals locals e
  else unmodelled.

(** [isinstance(v, (int, float))] *)
Definition is_int_or_float (v : value) : bool :=
  match v with
  | VInt _ | VFloat _ => true
  | _ => false
  end.

(** [float(v)] *)
Definition py_float (v : value) : M value :=
  match v with
  | VInt z => x <- to_float z ;; ret (VFloat x)
  | VFloat x => ret (VFloat x)
  | _ => raise TypeError
  end.

(** ** [Calculator._safe_eval] *)

Definition msg_invalid : string := "Invalid characters in expression.".
Definition msg_unsafe : string := "Unsafe expression.".
Definition msg_not_numeric : string := "Result is not numeric.".
Definition msg_evaluating : string := "Error evaluating expression.".

Definition unsafe_tokens (prepared : text) : bool :=
  contains (chars "__") prepared || contains (chars "import") prepared
  || contains (chars "exec") prepared || contains (chars "eval") prepared.

Section SafeEval.

(** The builtin [eval] that the method calls.  The method is written
    against any evaluator, so that what it does before, around and after
    the call can be stated whatever the call does. *)
Variable eval : text -> dict -> dict -> M value.

Definition safe_eval_with (expr : text) : M value :=
  match strip expr with
  | [] => ret (VInt 0)
  | _ :: _ =>
      if negb (ALLOWED_CHARS_RE_match expr) then raise (ValueError msg_invalid)
      else
        let prepared := safe_prepare expr in
        if unsafe_tokens prepared then raise (ValueError msg_unsafe)
        else
          try_except
            (result <- eval prepared EVAL_GLOBALS [] ;;
             if is_int_or_float result then ret result
             else try_except (py_float result)
                             (fun _ => raise (ValueError msg_not_numeric)))
            (fun _ => raise (ValueError msg_evaluating))
  end.

End SafeEval.

Definition safe_eval : text -> M value := safe_eval_with py_eval.

Definition _safe_eval (expr : string) : M value := safe_eval (chars expr).

(** The failures of the specification's contract are the three messages
    with which [_safe_eval] raises [ValueError]. *)
Definition InvalidExpression : exn := ValueError msg_invalid.
Definition UnsafeExpression : exn := ValueError msg_unsafe.
Definition EvaluationError : exn := ValueError msg_evaluating.

(** ** The calculator object and its actions *)

Record calculator := mk_calculator {
  expr : text;                          (* [self.expr] *)
  expr_var : text;                      (* [self.expr_var], the small label *)
  result_var : text;                    (* [self.result_var], the display *)
  errors : list (string * string)       (* [messagebox.showerror] calls, oldest first *)
}.

(** A method body: it may change the object before it returns or raises. *)
Definition UI (A : Type) : Type := calculator -> option (outcome A * calculator).

Definition ui_ret {A} (a : A) : UI A := fun self => Some (Return a, self).

Definition ui_bind {A B} (m : UI A) (k : A -> UI B) : UI B :=
  fun self =>
    match m self with
    | Some (Return a, self') => k a self'
    | Some (Raise e, self') => Some (Raise e, self')
    | None => None
    end.

Notation "x <~ m ;; k" := (ui_bind m (fun x => k))
  (at level 61, m at next level, right associativity).
Notation "m ;;; k" := (ui_bind m (fun _ => k))
  (at level 61, right associativity).

Definition lift {A} (m : M A) : UI A :=
  fun self =>
    match m with
    | Some o => Some (o, self)
    | None => None
    end.

Definition get_expr : UI text := fun self => Some (Return (expr self), self).

Definition set_expr (s : text) : UI unit :=
  fun self => Some (Return tt, mk_calculator s (expr_var self) (result_var self) (errors self)).

Definition set_expr_var (s : text) : UI unit :=
  fun self => Some (Return tt, mk_calculator (expr self) s (result_var self) (errors self)).

Definition set_result_var (s : text) : UI unit :=
  fun self => Some (Return tt, mk_calculator (expr self) (expr_var self) s (errors self)).

Definition showerror (title message : string) : UI unit :=
  fun self => Some (Return tt, mk_calculator (expr self) (expr_var self) (result_var self)
                                             (errors self ++ [(title, message)])).

(** [try: m  except ValueError: h] *)
Definition ui_except_ValueError {A} (m : UI A) (h : UI A) : UI A :=
  fun self =>
    match m self with
    | Some (Raise (ValueError _), self') => h self'
    | r => r
    end.

(** [try: m  except Exception: h] *)
Definition ui_except {A} (m : UI A) (h : UI A) : UI A :=
  fun self =>
    match m self with
    | Some (Raise _, self') => h self'
    | r => r
    end.

(** [x.is_integer()] *)
Definition float_is_integer (x : float) : bool :=
  match Prim2SF x with
  | S754_zero _ => true
  | S754_finite _ m e => (0 <=? e)%Z || (Z.pos m mod 2 ^ (- e) =? 0)%Z
  | _ => false
  end.

(** [int(x)]: truncation toward zero. *)
Definition int_of_float (x : float) : M Z :=
  match Prim2SF x with
  | S754_zero _ => ret 0%Z
  | S754_finite s m e =>
      let a := if (0 <=? e)%Z then (Z.pos m * 2 ^ e)%Z else (Z.pos m / 2 ^ (- e))%Z in
      ret (if s then (- a)%Z else a)
  | S754_infinity _ => raise OverflowError
  | S754_nan => raise (ValueError "cannot convert float NaN to integer")
  end.

(** [s.rstrip(c)] for a one-character argument *)
Fixpoint drop_leading (c : ascii) (s : text) : text :=
  match s with
  | a :: t => if Ascii.eqb a c then drop_leading c t else s
  | [] => []
  end.

Definition rstrip_char (c : ascii) (s : text) : text := rev (drop_leading c (rev s)).

(** [str(z)] for an integer: its decimal digits, with a sign when negative. *)
Definition int_str (z : Z) : text := chars (NilZero.string_of_int (Z.to_int z)).

Section Actions.

(** The interpreter's [str] of a float (its shortest round-trip text) and
    [round(x, 10)] are not part of the repository. *)
Variable float_str : float -> text.
Variable round10 : float -> float.

(** [str(v)] *)
Definition py_str (v : value) : M text :=
  match v with
  | VInt z => ret (int_str z)
  | VFloat x => ret (float_str x)
  | _ => unmodelled
  end.

Definition _update_display (preview : bool) : UI unit :=
  e <~ get_expr ;;
  set_expr_var e ;;;
  display <~
    (if preview && negb (match strip e with [] => true | _ => false end)
     then ui_except
            (val <~ lift (safe_eval e) ;;
             match val with
             | VFloat x =>
                 ui_ret (if contains (chars ".") (float_str x)
                         then rstrip_char "." (rstrip_char "0" (float_str (round10 x)))
                         else float_str x)
             | _ => lift (py_str val)
             end)
            (ui_ret [])
     else ui_ret (match e with [] => chars "0" | _ => e end)) ;;
  set_result_var display.

Definition _add (ch : text) : UI unit :=
  e <~ get_expr ;;
  set_expr (e ++ ch) ;;;
  _update_display true.

Definition _clear : UI unit :=
  set_expr [] ;;;
  _update_display false.

Definition _back : UI unit :=
  e <~ get_expr ;;
  set_expr (removelast e) ;;;
  _update_display true.

Definition _eval : UI unit :=
  ui_except_ValueError
    (e <~ get_expr ;;
     val <~ lift (safe_eval e) ;;
     val <~ lift (match val with
                  | VFloat x => if float_is_integer x
                                then z <- int_of_float x ;; ret (VInt z)
                                else ret val
                  | _ => ret val
                  end) ;;
     s <~ lift (py_str val) ;;
     set_expr s ;;;
     _update_display false)
    (showerror "Error" "Invalid expression").

End Actions.

(** ** Integer expressions

    The strings on which the value of the evaluator is compared with the
    mathematical one: decimal numerals, parentheses, unary and binary [+] and
    [-], and [*], in the usual grammar
<<
    sum    ::= term   | sum '+' term | sum '-' term
    term   ::= factor | term '*' factor
    factor ::= numeral | '(' sum ')' | '-' factor | '+' factor
>>
    [Arith l s v]: the string [s] is an expression of level [l] and its
    mathematical value is the integer [v]. *)

Inductive level := AtSum | AtTerm | AtFactor.

Inductive Arith : level -> text -> Z -> Prop :=
| A_num ds :
    ds <> [] -> forallb is_digit ds = true -> decimal_ok ds = true ->
    Arith AtFactor ds (Z_of_digits ds)
| A_paren s v : Arith AtSum s v -> Arith AtFactor (chars "(" ++ s ++ chars ")") v
| A_neg s v : Arith AtFactor s v -> Arith AtFactor (chars "-" ++ s) (- v)
| A_pos s v : Arith AtFactor s v -> Arith AtFactor (chars "+" ++ s) v
| A_factor s v : Arith AtFactor s v -> Arith AtTerm s v
| A_mul s1 v1 s2 v2 :
    Arith AtTerm s1 v1 -> Arith AtFactor s2 v2 ->
    Arith AtTerm (s1 ++ chars "*" ++ s2) (v1 * v2)
| A_term s v : Arith AtTerm s v -> Arith AtSum s v
| A_add s1 v1 s2 v2 :
    Arith AtSum s1 v1 -> Arith AtTerm s2 v2 ->
    Arith AtSum (s1 ++ chars "+" ++ s2) (v1 + v2)
| A_sub s1 v1 s2 v2 :
    Arith AtSum s1 v1 -> Arith AtTerm s2 v2 ->
    Arith AtSum (s1 ++ chars "-" ++ s2) (v1 - v2).

(** The same derivations, with the tokens and the syntax tree of each
    phrase. *)
Inductive Phrase : level -> text -> list token -> ast -> Z -> Prop :=
| P_num ds :
    ds <> [] -> forallb is_digit ds = true -> decimal_ok ds = true ->
    Phrase AtFactor ds [T_INT (Z_of_digits ds)] (Constant (VInt (Z_of_digits ds)))
           (Z_of_digits ds)
| P_paren s ts e v :
    Phrase AtSum s ts e v ->
    Phrase AtFactor (chars "(" ++ s ++ chars ")") (T_OP LPAR :: ts ++ [T_OP RPAR]) e v
| P_neg s ts e v :
    Phrase AtFactor s ts e v ->
    Phrase AtFactor (chars "-" ++ s) (T_OP MINUS :: ts) (UnaryOp USub e) (- v)
| P_pos s ts e v :
    Phrase AtFactor s ts e v ->
    Phrase AtFactor (chars "+" ++ s) (T_OP PLUS :: ts) (UnaryOp UAdd e) v
| P_factor s ts e v : Phrase AtFactor s ts e v -> Phrase AtTerm s ts e v
| P_mul s1 ts1 e1 v1 s2 ts2 e2 v2 :
    Phrase AtTerm s1 ts1 e1 v1 -> Phrase AtFactor s2 ts2 e2 v2 ->
    Phrase AtTerm (s1 ++ chars "*" ++ s2) (ts1 ++ T_OP STAR :: ts2)
           (BinOp e1 Mult e2) (v1 * v2)
| P_term s ts e v : Phrase AtTerm s ts e v -> Phrase AtSum s ts e v
| P_add s1 ts1 e1 v1 s2 ts2 e2 v2 :
    Phrase AtSum s1 ts1 e1 v1 -> Phrase AtTerm s2 ts2 e2 v2 ->
    Phrase AtSum (s1 ++ chars "+" ++ s2) (ts1 ++ T_OP PLUS :: ts2)
           (BinOp e1 Add e2) (v1 + v2)
| P_sub s1 ts1 e1 v1 s2 ts2 e2 v2 :
    Phrase AtSum s1 ts1 e1 v1 -> Phrase AtTerm s2 ts2 e2 v2 ->
    Phrase AtSum (s1 ++ chars "-" ++ s2) (ts1 ++ T_OP MINUS :: ts2)
           (BinOp e1 Sub e2) (v1 - v2).

(** The characters of integer expressions. *)
Definition arith_char (c : ascii) : bool :=
  is_digit c || existsb (Ascii.eqb c) (chars "+-*()").

(** A character that ends a numeral. *)
Definition ends_number (c : ascii) : bool :=
  negb (is_digit c) && negb (Ascii.eqb c ".") && negb (is_name_start c).

Definition tail_ok (tail : text) : bool :=
  match tail with
  | [] => true
  | c :: _ => ends_number c
  end.

(** What may follow a sum, a term and a factor in an integer expression. *)
Definition after_sum (rest : list token) : bool :=
  match rest with
  | [] | T_OP RPAR :: _ => true
  | _ => false
  end.

Definition after_term (rest : list token) : bool :=
  match rest with
  | [] | T_OP RPAR :: _ | T_OP PLUS :: _ | T_OP MINUS :: _ => true
  | _ => false
  end.

Definition after_factor (rest : list token) : bool :=
  match rest with
  | [] | T_OP RPAR :: _ | T_OP PLUS :: _ | T_OP MINUS :: _ | T_OP STAR :: _ => true
  | _ => false
  end.

Definition starts_phrase (t : token) : bool :=
  match t with
  | T_INT _ | T_OP LPAR | T_OP PLUS | T_OP MINUS => true
  | _ => false
  end.

(** The parser on the tokens [ts] of a phrase of level [l] with tree [e]:
    a factor is parsed whole; a term and a sum are parsed up to the loop that
    looks for a further operator, with fuel to spare. *)
Definition parses (l : level) (ts : list token) (e : ast) : Prop :=
  match l with
  | AtFactor =>
      forall fuel rest,
        (6 * List.length ts <= fuel + 2)%nat -> after_factor rest = true ->
        parse_factor fuel (ts ++ rest) = ret (e, rest)
  | AtTerm =>
      forall fuel rest,
        (6 * List.length ts <= fuel + 1)%nat -> after_factor rest = true ->
        exists fuel', (fuel <= fuel' + List.length ts)%nat
                      /\ parse_term fuel (ts ++ rest) = term_rest fuel' e rest
  | AtSum =>
      forall fuel rest,
        (6 * List.length ts <= fuel)%nat -> after_term rest = true ->
        exists fuel', (fuel <= fuel' + List.length ts)%nat
                      /\ parse_sum fuel (ts ++ rest) = sum_rest fuel' e rest
  end.

(** The exact rational value of a finite float. *)
Definition float_value (x : float) : option Q :=
  match Prim2SF x with
  | S754_zero _ => Some 0%Q
  | S754_finite s m e =>
      Some (inject_Z (if s then Z.neg m else Z.pos m) * Qpower 2 e)%Q
  | S754_infinity _ | S754_nan => None
  end.

(** * Properties *)

(** ** The model at work *)

Example prepare_percent : _safe_prepare "50%" = "(50/100)"%string.
Proof. reflexivity. Qed.

Example prepare_mixed : _safe_prepare "1.5 %+2^3" = "(1.5/100)+2**3"%string.
Proof. reflexivity. Qed.

Example eval_precedence : _safe_eval "1+2*3" = ret (VInt 7).
Proof. reflexivity. Qed.

Example eval_power_binds_tighter : _safe_eval "-2**2" = ret (VInt (-4)).
Proof. reflexivity. Qed.

Example eval_percent : _safe_eval "50%" = ret (VFloat 0.5).
Proof. reflexivity. Qed.

Example eval_floor_division : _safe_eval "-7//2" = ret (VInt (-4)).
Proof. reflexivity. Qed.

Example eval_call : _safe_eval "pow(2,10)+abs(-3)" = ret (VInt 1027).
Proof. reflexivity. Qed.

Example eval_sqrt : _safe_eval "sqrt(16)" = ret (VFloat 4).
Proof. reflexivity. Qed.

Example eval_not_callable : _safe_eval "2(3)" = raise EvaluationError.
Proof. reflexivity. Qed.

Example eval_leading_zero : _safe_eval "08" = raise EvaluationError.
Proof. reflexivity. Qed.


(** ** Text *)

Lemma chars_str (t : text) : chars (str t) = t.
Proof. apply list_ascii_of_string_of_list_ascii. Qed.

Lemma str_chars (s : string) : str (chars s) = s.
Proof. apply string_of_list_ascii_of_string. Qed.

Lemma chars_app (a b : string) : chars (a ++ b)%string = chars a ++ chars b.
Proof. induction a as [|c a IH]; simpl; [reflexivity | now rewrite <- IH]. Qed.

Lemma str_app (a b : text) : str (a ++ b) = (str a ++ str b)%string.
Proof. induction a as [|c a IH]; simpl; [reflexivity | now rewrite <- IH]. Qed.

Lemma lstrip_nil_iff (s : text) : lstrip s = [] <-> forallb is_space s = true.
Proof.
  induction s as [|c s IH]; simpl; [tauto|].
  destruct (is_space c); simpl; [exact IH | split; discriminate].
Qed.

Lemma lstrip_head (s : text) c t : lstrip s = c :: t -> is_space c = false.
Proof.
  induction s as [|a s IH]; simpl; [discriminate|].
  destruct (is_space a) eqn:E; [exact IH | intros [= <- _]; exact E].
Qed.

Lemma forallb_rev {A} (p : A -> bool) (l : list A) : forallb p (rev l) = forallb p l.
Proof.
  induction l as [|a l IH]; simpl; [reflexivity|].
  rewrite forallb_app, IH; simpl. rewrite andb_true_r. apply andb_comm.
Qed.

(** [not expr.strip()] holds exactly of the strings of whitespace. *)
Lemma strip_nil_iff (s : text) : strip s = [] <-> forallb is_space s = true.
Proof.
  unfold strip, rstrip. split.
  - intros H.
    assert (H1 : lstrip (rev (lstrip s)) = []).
    { destruct (lstrip (rev (lstrip s))) as [|a l]; [reflexivity|].
      simpl in H. destruct (rev l); discriminate. }
    apply lstrip_nil_iff in H1. rewrite forallb_rev in H1.
    destruct (lstrip s) as [|c t] eqn:E; [now apply lstrip_nil_iff|].
    apply lstrip_head in E. simpl in H1. rewrite E in H1. discriminate.
  - intros H. apply lstrip_nil_iff in H. rewrite H. reflexivity.
Qed.

Lemma contains_In (needle hay : text) c :
  contains needle hay = true -> In c needle -> In c hay.
Proof.
  assert (P : forall p s, starts_with p s = true -> In c p -> In c s).
  { induction p as [|a p IH]; intros [|b s]; simpl; try easy.
    intros H [->|Hin]; apply andb_true_iff in H as [H1 H2].
    - apply Ascii.eqb_eq in H1. now left.
    - right. now apply IH. }
  induction hay as [|b hay IH]; simpl; intros H Hin.
  - rewrite orb_false_r in H. destruct needle; [easy | discriminate].
  - apply orb_true_iff in H as [H|H].
    + now apply (P needle (b :: hay)).
    + right. now apply IH.
Qed.

(** ** The character whitelist *)

Lemma newline_allowed c : (code c =? 10)%N = true -> allowed_class c = true.
Proof.
  intros H. unfold allowed_class. rewrite H.
  now rewrite !orb_true_r.
Qed.

Lemma existsb_dollar_cons c (l : list (text * text)) :
  existsb (fun '(_, r) => at_dollar r) (map (fun '(a, r') => (c :: a, r')) l)
  = existsb (fun '(_, r) => at_dollar r) l.
Proof.
  induction l as [|[a r] l IH]; simpl; [reflexivity | now rewrite IH].
Qed.

(** The anchored pattern matches exactly the strings drawn from the class:
    the early [$] before a final newline gives nothing more, as the newline
    is in the class. *)
Lemma ALLOWED_CHARS_RE_match_spec (s : text) :
  ALLOWED_CHARS_RE_match s = forallb allowed_class s.
Proof.
  unfold ALLOWED_CHARS_RE_match.
  induction s as [|c s IH]; simpl; [reflexivity|].
  destruct (allowed_class c) eqn:E; simpl.
  - rewrite existsb_app, existsb_dollar_cons, IH. simpl.
    rewrite orb_false_r.
    destruct s as [|d s]; simpl; [reflexivity|].
    now rewrite orb_false_r.
  - rewrite orb_false_r. destruct s as [|d s]; [|reflexivity].
    destruct (code c =? 10)%N eqn:E10; [|reflexivity].
    apply newline_allowed in E10. congruence.
Qed.

Lemma allowed_iff (s : text) :
  ALLOWED_CHARS_RE_match s = true <-> (forall c, In c s -> allowed_class c = true).
Proof. rewrite ALLOWED_CHARS_RE_match_spec. apply forallb_forall. Qed.

(** ** The backtracking matcher *)

(** Every result of a matcher splits its input. *)
Definition splits (m : matcher) : Prop :=
  forall s a r, In (a, r) (m s) -> s = a ++ r.

Lemma m_char_inv p s a r :
  In (a, r) (m_char p s) -> exists c, a = [c] /\ p c = true /\ s = c :: r.
Proof.
  destruct s as [|c s]; simpl; [easy|].
  destruct (p c) eqn:E; simpl; [|easy].
  intros [[= <- <-]|[]]. now exists c.
Qed.

Lemma m_seq_inv (m1 m2 : matcher) s a r :
  In (a, r) (m_seq m1 m2 s) ->
  exists a1 a2 r1, a = a1 ++ a2 /\ In (a1, r1) (m1 s) /\ In (a2, r) (m2 r1).
Proof.
  unfold m_seq. intros H.
  apply in_flat_map in H as [[a1 r1] [H1 H2]].
  apply in_map_iff in H2 as [[a2 r2] [[= <- <-] H2]].
  now exists a1, a2, r1.
Qed.

Lemma m_star_inv p s a r :
  In (a, r) (m_star p s) -> s = a ++ r /\ forallb p a = true.
Proof.
  revert a r. induction s as [|c s IH]; simpl; intros a r.
  - intros [[= <- <-]|[]]. now split.
  - destruct (p c) eqn:E.
    + rewrite in_app_iff. intros [H|[[= <- <-]|[]]]; [|now split].
      apply in_map_iff in H as [[a' r'] [[= <- <-] H]].
      apply IH in H as [-> H]. simpl. now rewrite E.
    + intros [[= <- <-]|[]]. now split.
Qed.

Lemma splits_char p : splits (m_char p).
Proof. intros s a r H. apply m_char_inv in H as (c & -> & _ & ->). reflexivity. Qed.

Lemma splits_star p : splits (m_star p).
Proof. intros s a r H. now apply m_star_inv in H. Qed.

Lemma splits_seq m1 m2 : splits m1 -> splits m2 -> splits (m_seq m1 m2).
Proof.
  intros S1 S2 s a r H. apply m_seq_inv in H as (a1 & a2 & r1 & -> & H1 & H2).
  rewrite (S1 _ _ _ H1), (S2 _ _ _ H2). now rewrite app_assoc.
Qed.

Lemma splits_opt m : splits m -> splits (m_opt m).
Proof.
  intros S s a r H. unfold m_opt in H. apply in_app_iff in H as [H|[[= <- <-]|[]]].
  - now apply S.
  - reflexivity.
Qed.

Lemma splits_literal : splits m_literal.
Proof.
  unfold m_literal, m_plus.
  repeat first [apply splits_seq | apply splits_opt | apply splits_char | apply splits_star].
Qed.

(** What a match of the percent pattern looks like. *)
Lemma percent_match_inv s g r :
  percent_match s = Some (g, r) ->
  exists w, s = g ++ w ++ "%"%char :: r /\ g <> [].
Proof.
  unfold percent_match. intros H.
  assert (Hin : In (g, r)
    (flat_map (fun '(g, r) => map (fun '(_, r') => (g, r')) (m_percent_tail r)) (m_literal s))).
  { destruct (flat_map _ _); [discriminate|]. injection H as ->. now left. }
  apply in_flat_map in Hin as [[g' r1] [H1 H2]].
  apply in_map_iff in H2 as [[t r'] [[= <- <-] H2]].
  pose proof (splits_literal _ _ _ H1) as ->.
  unfold m_percent_tail in H2.
  apply m_seq_inv in H2 as (w & p & r2 & -> & Hw & Hp).
  apply m_star_inv in Hw as [-> _].
  apply m_char_inv in Hp as (c & -> & Hc & ->).
  apply Ascii.eqb_eq in Hc. subst c.
  exists w. split.
  - reflexivity.
  - unfold m_literal, m_plus in H1.
    apply m_seq_inv in H1 as (a1 & a2 & r3 & -> & H1 & _).
    apply m_seq_inv in H1 as (b1 & b2 & r4 & -> & H1 & _).
    apply m_char_inv in H1 as (c & -> & _). discriminate.
Qed.

Lemma percent_match_none s : ~ In "%"%char s -> percent_match s = None.
Proof.
  intros H. destruct (percent_match s) as [[g r]|] eqn:E; [|reflexivity].
  apply percent_match_inv in E as (w & -> & _).
  exfalso. apply H. rewrite !in_app_iff. right. right. now left.
Qed.

(** Without a percent sign the substitution changes nothing. *)
Lemma sub_percent_fuel_id fuel s : ~ In "%"%char s -> sub_percent_fuel fuel s = s.
Proof.
  revert s. induction fuel as [|fuel IH]; intros s H; simpl; [reflexivity|].
  destruct s as [|c t]; [reflexivity|].
  rewrite (percent_match_none _ H). f_equal. apply IH.
  intros Hin. apply H. now right.
Qed.

Lemma replace_caret_id s : ~ In "^"%char s -> replace_caret s = s.
Proof.
  unfold replace_caret. induction s as [|c s IH]; simpl; intros H; [reflexivity|].
  destruct (Ascii.eqb c "^") eqn:E.
  - apply Ascii.eqb_eq in E. exfalso. apply H. now left.
  - simpl. f_equal. apply IH. intros Hin. apply H. now right.
Qed.

Lemma safe_prepare_id s :
  ~ In "%"%char s -> ~ In "^"%char s -> safe_prepare s = s.
Proof.
  intros Hp Hc. unfold safe_prepare, sub_percent.
  rewrite (sub_percent_fuel_id _ _ Hp). now apply replace_caret_id.
Qed.

(** Greedy repetition takes the whole run first. *)
Lemma m_star_greedy p w rest :
  forallb p w = true ->
  match rest with c :: _ => p c = false | [] => True end ->
  exists tl, m_star p (w ++ rest) = (w, rest) :: tl.
Proof.
  intros Hw Hrest. induction w as [|c w IH].
  - destruct rest as [|c rest]; simpl; [now exists []|]. rewrite Hrest. now exists [].
  - simpl in Hw. apply andb_true_iff in Hw as [Hc Hw]. simpl. rewrite Hc.
    destruct (IH Hw) as [tl ->]. simpl. eexists. reflexivity.
Qed.

Lemma m_plus_greedy p d rest :
  d <> [] -> forallb p d = true ->
  match rest with c :: _ => p c = false | [] => True end ->
  exists tl, m_plus p (d ++ rest) = (d, rest) :: tl.
Proof.
  intros Hne Hd Hrest. destruct d as [|c d]; [easy|]. simpl in Hd.
  apply andb_true_iff in Hd as [Hc Hd].
  unfold m_plus, m_seq. simpl. rewrite Hc. simpl.
  destruct (m_star_greedy p d rest Hd Hrest) as [tl ->]. simpl.
  eexists. reflexivity.
Qed.

Lemma space_not_digit c : is_space c = true -> is_digit c = false.
Proof. destruct c as [[] [] [] [] [] [] [] []]; vm_compute; congruence. Qed.

Lemma space_not_dot c : is_space c = true -> is_char "." c = false.
Proof. destruct c as [[] [] [] [] [] [] [] []]; vm_compute; congruence. Qed.

Lemma m_seq_first (m1 m2 : matcher) s a r tl b r' tl' :
  m1 s = (a, r) :: tl -> m2 r = (b, r') :: tl' ->
  exists tl'', m_seq m1 m2 s = (a ++ b, r') :: tl''.
Proof.
  intros H1 H2. unfold m_seq. rewrite H1. simpl. rewrite H2. simpl.
  eexists. reflexivity.
Qed.

(** The pattern on a digit string, whitespace and a percent sign. *)
Lemma percent_match_literal d w :
  d <> [] -> forallb is_digit d = true -> forallb is_space w = true ->
  percent_match (d ++ w ++ chars "%") = Some (d, []).
Proof.
  intros Hne Hd Hw.
  assert (Hhead : match w ++ chars "%" with
                  | c :: _ => is_digit c = false /\ is_char "." c = false
                  | [] => True
                  end).
  { destruct w as [|c w]; simpl; [now split|].
    simpl in Hw. apply andb_true_iff in Hw as [Hc _].
    split; [now apply space_not_digit | now apply space_not_dot]. }
  destruct (m_plus_greedy is_digit d (w ++ chars "%") Hne Hd) as [tl Htl].
  { destruct (w ++ chars "%"); [exact I | apply Hhead]. }
  assert (Hopt : m_opt (m_seq (m_char (is_char ".")) (m_plus is_digit)) (w ++ chars "%")
                 = [([], w ++ chars "%")]).
  { unfold m_opt, m_seq, m_char. destruct (w ++ chars "%") as [|c r]; [reflexivity|].
    destruct Hhead as [_ ->]. reflexivity. }
  destruct (m_seq_first _ _ _ _ _ _ _ _ _ Htl Hopt) as [tl1 Hlit].
  fold m_literal in Hlit. rewrite app_nil_r in Hlit.
  destruct (m_star_greedy is_space w (chars "%") Hw) as [tl2 Hsp]; [reflexivity|].
  assert (Hpc : m_char (is_char "%") (chars "%") = [(chars "%", [])]) by reflexivity.
  destruct (m_seq_first _ _ _ _ _ _ _ _ _ Hsp Hpc) as [tl3 Htail].
  fold m_percent_tail in Htail.
  unfold percent_match. rewrite Hlit. cbn [flat_map]. rewrite Htail. reflexivity.
Qed.

(** ** The checks of [_safe_eval] *)

Section Checks.

Variable eval : text -> dict -> dict -> M value.

Lemma safe_eval_blank s : strip s = [] -> safe_eval_with eval s = ret (VInt 0).
Proof. intros H. unfold safe_eval_with. now rewrite H. Qed.

Lemma safe_eval_invalid s :
  strip s <> [] -> ALLOWED_CHARS_RE_match s = false ->
  safe_eval_with eval s = raise InvalidExpression.
Proof.
  intros Hs Ha. unfold safe_eval_with.
  destruct (strip s); [easy|]. now rewrite Ha.
Qed.

Lemma safe_eval_unsafe s :
  strip s <> [] -> ALLOWED_CHARS_RE_match s = true ->
  unsafe_tokens (safe_prepare s) = true ->
  safe_eval_with eval s = raise UnsafeExpression.
Proof.
  intros Hs Ha Hu. unfold safe_eval_with.
  destruct (strip s); [easy|]. rewrite Ha. simpl. now rewrite Hu.
Qed.

Lemma safe_eval_evaluated s :
  strip s <> [] -> ALLOWED_CHARS_RE_match s = true ->
  unsafe_tokens (safe_prepare s) = false ->
  safe_eval_with eval s =
  try_except
    (result <- eval (safe_prepare s) EVAL_GLOBALS [] ;;
     if is_int_or_float result then ret result
     else try_except (py_float result) (fun _ => raise (ValueError msg_not_numeric)))
    (fun _ => raise EvaluationError).
Proof.
  intros Hs Ha Hu. unfold safe_eval_with.
  destruct (strip s); [easy|]. rewrite Ha. simpl. now rewrite Hu.
Qed.

(** Whatever the evaluator does, the method returns a number or raises
    one of its three [ValueError]s, or the evaluator left the model. *)
Lemma safe_eval_cases s :
  (exists v, safe_eval_with eval s = ret v /\ is_int_or_float v = true)
  \/ safe_eval_with eval s = raise InvalidExpression
  \/ safe_eval_with eval s = raise UnsafeExpression
  \/ safe_eval_with eval s = raise EvaluationError
  \/ safe_eval_with eval s = unmodelled.
Proof.
  destruct (strip s) as [|c t] eqn:Hs.
  { left. exists (VInt 0). split; [now apply safe_eval_blank | reflexivity]. }
  assert (Hne : strip s <> []) by (rewrite Hs; discriminate).
  destruct (ALLOWED_CHARS_RE_match s) eqn:Ha.
  2:{ right. left. now apply safe_eval_invalid. }
  destruct (unsafe_tokens (safe_prepare s)) eqn:Hu.
  { right. right. left. now apply safe_eval_unsafe. }
  rewrite (safe_eval_evaluated s Hne Ha Hu).
  destruct (eval (safe_prepare s) EVAL_GLOBALS []) as [[v|e]|]; simpl.
  - destruct (is_int_or_float v) eqn:Hv.
    + left. now exists v.
    + destruct v; try discriminate; simpl; tauto.
  - tauto.
  - tauto.
Qed.

End Checks.

Lemma space_facts :
  is_space "%" = false /\ is_space "^" = false /\ is_space "_" = false
  /\ is_space "i" = false /\ is_space "e" = false.
Proof. repeat split. Qed.

Lemma blank_no_char (s : text) c : strip s = [] -> is_space c = false -> ~ In c s.
Proof.
  intros Hs Hc Hin. apply strip_nil_iff in Hs.
  rewrite forallb_forall in Hs. apply Hs in Hin. congruence.
Qed.

(** A blank input has nothing for the token check to find. *)
Lemma blank_not_unsafe (s : text) : strip s = [] -> unsafe_tokens (safe_prepare s) = false.
Proof.
  intros Hs. destruct space_facts as (Hp & Hc & Hu & Hi & He).
  rewrite safe_prepare_id by now apply blank_no_char.
  unfold unsafe_tokens.
  destruct (contains (chars "__") s) eqn:E1.
  { exfalso. apply (blank_no_char s "_" Hs Hu). apply (contains_In _ _ _ E1). now left. }
  destruct (contains (chars "import") s) eqn:E2.
  { exfalso. apply (blank_no_char s "i" Hs Hi). apply (contains_In _ _ _ E2). now left. }
  destruct (contains (chars "exec") s) eqn:E3.
  { exfalso. apply (blank_no_char s "e" Hs He). apply (contains_In _ _ _ E3). now left. }
  destruct (contains (chars "eval") s) eqn:E4.
  { exfalso. apply (blank_no_char s "e" Hs He). apply (contains_In _ _ _ E4). now left. }
  reflexivity.
Qed.

(** ** Blank input *)

(** C8. For every input whose trimmed form is empty, whatever the evaluator
    would do, [_safe_eval] returns the integer 0 and does not fail; the empty
    string and the string of three spaces are such inputs. *)
Theorem blank_input_is_zero (eval : text -> dict -> dict -> M value) (s : string) :
  strip (chars s) = [] -> safe_eval_with eval (chars s) = ret (VInt 0).
Proof. apply safe_eval_blank. Qed.

Lemma blank_input_is_zero_witness :
  (strip (chars EmptyString) = [] /\ _safe_eval EmptyString = ret (VInt 0))
  /\ (strip (chars "   ") = [] /\ _safe_eval "   " = ret (VInt 0)).
Proof.
  split; (split; [reflexivity|]).
  - apply (blank_input_is_zero py_eval EmptyString). reflexivity.
  - apply (blank_input_is_zero py_eval "   "). reflexivity.
Defined.

(** ** The caret *)

Lemma caret_not_allowed : allowed_class "^" = false.
Proof. reflexivity. Qed.

(** C3. The normaliser rewrites [^] to [**], but the whitelist has no [^]:
    every input that contains a caret is refused with "Invalid characters in
    expression." before the normaliser runs, whatever the evaluator would do.
    So [_safe_eval("2^3")] does not return 8. *)
Theorem caret_input_is_rejected (eval : text -> dict -> dict -> M value) (s : string) :
  In "^"%char (chars s) -> safe_eval_with eval (chars s) = raise InvalidExpression.
Proof.
  intros Hin. apply safe_eval_invalid.
  - intros Hs. destruct space_facts as (_ & Hc & _).
    now apply (blank_no_char _ _ Hs Hc).
  - rewrite ALLOWED_CHARS_RE_match_spec.
    destruct (forallb allowed_class (chars s)) eqn:E; [|reflexivity].
    rewrite forallb_forall in E. apply E in Hin.
    rewrite caret_not_allowed in Hin. discriminate.
Qed.

Lemma caret_input_is_rejected_witness :
  In "^"%char (chars "2^3")
  /\ _safe_eval "2^3" = raise InvalidExpression
  /\ _safe_prepare "2^3" = "2**3"%string
  /\ py_eval (chars "2**3") EVAL_GLOBALS [] = ret (VInt 8).
Proof.
  assert (H : In "^"%char (chars "2^3")) by (simpl; tauto).
  split; [exact H|]. split; [exact (caret_input_is_rejected py_eval "2^3" H)|].
  split; reflexivity.
Defined.

(** ** Character validation *)

Lemma allowed_class_spec c :
  allowed_class c
  = spec_whitelist c || (code c =? 9)%N || (code c =? 10)%N || Ascii.eqb c "_".
Proof. destruct c as [[] [] [] [] [] [] [] []]; reflexivity. Qed.

(** C4, as the code has it. For every input whose trimmed form is not empty:
    character validation passes exactly when every character is in the class
    of [ALLOWED_CHARS_RE], which is the whitelist of the specification
    together with tab, newline and underscore; if some character is outside
    that class [_safe_eval] fails with InvalidExpression, and if none is it
    does not fail with InvalidExpression. *)
Theorem whitelist_gate (eval : text -> dict -> dict -> M value) (s : string) :
  strip (chars s) <> [] ->
  (forall c, allowed_class c
             = spec_whitelist c || (code c =? 9)%N || (code c =? 10)%N || Ascii.eqb c "_")
  /\ (ALLOWED_CHARS_RE_match (chars s) = true
      <-> forall c, In c (chars s) -> allowed_class c = true)
  /\ ((exists c, In c (chars s) /\ allowed_class c = false)
      -> safe_eval_with eval (chars s) = raise InvalidExpression)
  /\ ((forall c, In c (chars s) -> allowed_class c = true)
      -> safe_eval_with eval (chars s) <> raise InvalidExpression).
Proof.
  intros Hs. split; [exact allowed_class_spec|]. split; [apply allowed_iff|]. split.
  - intros (c & Hin & Hc). apply safe_eval_invalid; [exact Hs|].
    destruct (ALLOWED_CHARS_RE_match (chars s)) eqn:E; [|reflexivity].
    rewrite (proj1 (allowed_iff _) E c Hin) in Hc. discriminate.
  - intros Hall. apply allowed_iff in Hall.
    destruct (unsafe_tokens (safe_prepare (chars s))) eqn:Hu.
    + rewrite (safe_eval_unsafe eval _ Hs Hall Hu). discriminate.
    + rewrite (safe_eval_evaluated eval _ Hs Hall Hu).
      destruct (eval (safe_prepare (chars s)) EVAL_GLOBALS []) as [[v|e]|]; simpl;
        try discriminate.
      destruct v; simpl; discriminate.
Qed.

Lemma whitelist_gate_witness :
  strip (chars "2$") <> [] /\ _safe_eval "2$" = raise InvalidExpression.
Proof.
  assert (H : strip (chars "2$") <> []) by discriminate.
  split; [exact H|].
  destruct (whitelist_gate py_eval "2$" H) as (_ & _ & Hbad & _).
  apply Hbad. exists "$"%char. split; [simpl; tauto | reflexivity].
Defined.

(** C4 as stated fails: the underscore, the tab and the carriage return are
    outside the specification's whitelist, yet ["_"] and ["1<TAB>+1"] pass
    character validation (the first then fails as an evaluation error, the
    second returns 2), and the non-empty input ["<CR>"] is blank, so
    [_safe_eval] returns 0 for it without validating anything. *)
Lemma whitelist_gate_counterexample :
  (spec_whitelist "_" = false
   /\ ALLOWED_CHARS_RE_match (chars "_") = true
   /\ _safe_eval "_" = raise EvaluationError)
  /\ (spec_whitelist "009" = false
      /\ ALLOWED_CHARS_RE_match (chars (String "1" (String "009" "+1"))) = true
      /\ _safe_eval (String "1" (String "009" "+1")) = ret (VInt 2))
  /\ (spec_whitelist "013" = false
      /\ String "013" EmptyString <> EmptyString
      /\ _safe_eval (String "013" EmptyString) = ret (VInt 0))
  /\ InvalidExpression <> EvaluationError.
Proof. repeat split; discriminate. Qed.

(** ** The token check *)

(** C5, as the code has it. For every input whose normalised form contains a
    double underscore or one of the words import, exec, eval: if the input
    passes character validation, [_safe_eval] fails with UnsafeExpression, and
    otherwise with InvalidExpression; either way whatever the evaluator would
    do, so nothing is evaluated. *)
Theorem unsafe_tokens_gate (eval : text -> dict -> dict -> M value) (s : string) :
  unsafe_tokens (safe_prepare (chars s)) = true ->
  (ALLOWED_CHARS_RE_match (chars s) = true
   -> safe_eval_with eval (chars s) = raise UnsafeExpression)
  /\ (ALLOWED_CHARS_RE_match (chars s) = false
      -> safe_eval_with eval (chars s) = raise InvalidExpression).
Proof.
  intros Hu.
  assert (Hs : strip (chars s) <> []).
  { intros Hs. apply blank_not_unsafe in Hs. congruence. }
  split; intros Ha.
  - now apply safe_eval_unsafe.
  - now apply safe_eval_invalid.
Qed.

Lemma unsafe_tokens_gate_witness :
  (unsafe_tokens (safe_prepare (chars "import os")) = true
   /\ _safe_eval "import os" = raise UnsafeExpression)
  /\ (unsafe_tokens (safe_prepare (chars "exec(1)")) = true
      /\ _safe_eval "exec(1)" = raise UnsafeExpression).
Proof.
  split; (split; [reflexivity|]).
  - apply (unsafe_tokens_gate py_eval "import os"); reflexivity.
  - apply (unsafe_tokens_gate py_eval "exec(1)"); reflexivity.
Defined.

(** C5 as stated fails: the normalised form of [__import__('os')] contains
    both a double underscore and the word import, and [_safe_eval] fails with
    InvalidExpression, not UnsafeExpression, because the quote is refused
    first. *)
Lemma unsafe_tokens_gate_counterexample :
  unsafe_tokens (safe_prepare (chars "__import__('os')")) = true
  /\ _safe_eval "__import__('os')" = raise InvalidExpression
  /\ InvalidExpression <> UnsafeExpression.
Proof. repeat split. discriminate. Qed.

(** ** Errors of the evaluation *)

Lemma py_float_non_numeric v :
  is_int_or_float v = false -> py_float v = raise TypeError.
Proof. destruct v; simpl; intros H; try discriminate; reflexivity. Qed.



(** ** The normaliser *)

Lemma sub_percent_fuel_nil fuel : sub_percent_fuel fuel [] = [].
Proof. destruct fuel; reflexivity. Qed.

Lemma percent_match_shorter s g r :
  percent_match s = Some (g, r) -> (List.length r < List.length s)%nat.
Proof.
  intros H. apply percent_match_inv in H as (w & -> & _).
  rewrite !length_app. simpl. lia.
Qed.

(** The fuel of [re.sub] never runs out: any amount from the length of the
    subject on gives the same result. *)
Lemma sub_percent_fuel_enough n : forall m s,
  (List.length s <= n)%nat -> (List.length s <= m)%nat ->
  sub_percent_fuel n s = sub_percent_fuel m s.
Proof.
  induction n as [|n IH]; intros m s Hn Hm.
  - destruct s; [|simpl in Hn; lia]. now rewrite !sub_percent_fuel_nil.
  - destruct s as [|c t]; [now rewrite !sub_percent_fuel_nil|].
    destruct m as [|m]; [simpl in Hm; lia|]. simpl in Hn, Hm. simpl.
    destruct (percent_match (c :: t)) as [[g r]|] eqn:E.
    + apply percent_match_shorter in E. simpl in E.
      rewrite (IH m r) by lia. reflexivity.
    + rewrite (IH m t) by lia. reflexivity.
Qed.

(** C9. If the first normalisation of [x] leaves no percent sign and no
    caret, normalising again changes nothing. *)
Theorem safe_prepare_idempotent (x : string) :
  ~ In "%"%char (chars (_safe_prepare x)) ->
  ~ In "^"%char (chars (_safe_prepare x)) ->
  _safe_prepare (_safe_prepare x) = _safe_prepare x.
Proof.
  unfold _safe_prepare. rewrite !chars_str. intros Hp Hc.
  now rewrite safe_prepare_id.
Qed.

Lemma safe_prepare_idempotent_witness :
  ~ In "%"%char (chars (_safe_prepare "50%+2^3"))
  /\ ~ In "^"%char (chars (_safe_prepare "50%+2^3"))
  /\ _safe_prepare "50%+2^3" = "(50/100)+2**3"%string
  /\ _safe_prepare (_safe_prepare "50%+2^3") = _safe_prepare "50%+2^3".
Proof.
  assert (Hp : ~ In "%"%char (chars (_safe_prepare "50%+2^3")))
    by (vm_compute; intuition discriminate).
  assert (Hc : ~ In "^"%char (chars (_safe_prepare "50%+2^3")))
    by (vm_compute; intuition discriminate).
  split; [exact Hp|]. split; [exact Hc|]. split; [reflexivity|].
  exact (safe_prepare_idempotent "50%+2^3" Hp Hc).
Defined.

(** C10. For every non-empty string [d] of digits and every run [w] of
    whitespace, the normaliser turns [d], [w], [%] into [(d/100)]: the
    whitespace between the literal and the percent sign is dropped. *)
Theorem percent_tolerates_whitespace (d w : string) :
  d <> EmptyString ->
  forallb is_digit (chars d) = true ->
  forallb is_space (chars w) = true ->
  _safe_prepare (d ++ w ++ "%") = ("(" ++ d ++ "/100)")%string.
Proof.
  intros Hne Hd Hw. unfold _safe_prepare. rewrite !chars_app.
  assert (Hne' : chars d <> []) by (destruct d; [easy | discriminate]).
  unfold safe_prepare, sub_percent.
  pose proof (percent_match_literal (chars d) (chars w) Hne' Hd Hw) as Hm.
  destruct (chars d ++ chars w ++ chars "%") as [|c t] eqn:E.
  { destruct (chars d); [easy | discriminate]. }
  cbn [List.length sub_percent_fuel]. rewrite Hm, sub_percent_fuel_nil, app_nil_r.
  rewrite replace_caret_id.
  - rewrite !str_app, !str_chars. reflexivity.
  - rewrite !in_app_iff. intros [H|[H|H]].
    + simpl in H. intuition discriminate.
    + rewrite forallb_forall in Hd. apply Hd in H. discriminate.
    + simpl in H. intuition discriminate.
Qed.

Lemma percent_tolerates_whitespace_witness :
  "50"%string <> EmptyString
  /\ forallb is_digit (chars "50") = true
  /\ forallb is_space (chars " ") = true
  /\ _safe_prepare "50 %" = "(50/100)"%string.
Proof.
  assert (Hne : "50"%string <> EmptyString) by discriminate.
  split; [exact Hne|]. split; [reflexivity|]. split; [reflexivity|].
  exact (percent_tolerates_whitespace "50" " " Hne eq_refl eq_refl).
Defined.


(** ** Integer expressions: scanning *)

Lemma Arith_Phrase l s v : Arith l s v -> exists ts e, Phrase l s ts e v.
Proof.
  induction 1;
    repeat match goal with H : exists _, _ |- _ => destruct H end;
    do 2 eexists; econstructor; eassumption.
Qed.

Lemma lex_cons st c s :
  lex st (c :: s) = ('(now, st') <- step st c ;; later <- lex st' s ;; ret (now ++ later)).
Proof. reflexivity. Qed.

(** A numeral in progress, up to the character that ends it. *)
Lemma lex_int ds : forall acc tail,
  forallb is_digit ds = true -> tail_ok tail = true -> decimal_ok (acc ++ ds) = true ->
  lex (LInt acc) (ds ++ tail)
  = (later <- lex LStart tail ;; ret (T_INT (Z_of_digits (acc ++ ds)) :: later)).
Proof.
  induction ds as [|d ds IH]; intros acc tail Hd Ht Hok.
  - rewrite app_nil_r in *. simpl.
    destruct tail as [|c t]; simpl.
    + now rewrite Hok.
    + simpl in Ht. unfold ends_number in Ht.
      apply andb_true_iff in Ht as [Ht Hn]. apply andb_true_iff in Ht as [Hg Hp].
      apply negb_true_iff in Hg, Hp, Hn. rewrite Hg, Hp, Hn.
      unfold flush_then_start. simpl. rewrite Hok. simpl.
      destruct (start c) as [[[now st']|err]|]; simpl; [|reflexivity..].
      destruct (lex st' t) as [[later|err]|]; reflexivity.
  - simpl in Hd. apply andb_true_iff in Hd as [Hd Hds].
    simpl. rewrite Hd. simpl.
    rewrite (IH (acc ++ [d]) tail Hds Ht) by now rewrite <- app_assoc.
    rewrite <- app_assoc. simpl.
    destruct (lex LStart tail) as [[later|err]|]; reflexivity.
Qed.

(** A star followed by anything but a star is the operator [*]. *)
Lemma lex_star c s :
  Ascii.eqb c "*" = false ->
  lex LStar (c :: s) = (later <- lex LStart (c :: s) ;; ret (T_OP STAR :: later)).
Proof.
  intros Hc. rewrite !lex_cons. simpl. rewrite Hc.
  unfold flush_then_start. simpl.
  destruct (start c) as [[[now st']|err]|]; simpl; [|reflexivity..].
  destruct (lex st' s) as [[later|err]|]; reflexivity.
Qed.

Lemma digit_not_star c : is_digit c = true -> Ascii.eqb c "*" = false.
Proof. destruct c as [[] [] [] [] [] [] [] []]; vm_compute; congruence. Qed.

Lemma digit_arith c : is_digit c = true -> arith_char c = true.
Proof. intros H. unfold arith_char. now rewrite H. Qed.

(** A phrase is not empty, does not start with a star, and is written with
    the characters of integer expressions. *)
Lemma Phrase_text l s ts e v :
  Phrase l s ts e v ->
  (exists c s', s = c :: s' /\ Ascii.eqb c "*" = false) /\ forallb arith_char s = true.
Proof.
  induction 1 as [ds Hne Hd Hok | s ts e v H [IH1 IH2] | s ts e v H [IH1 IH2]
                 | s ts e v H [IH1 IH2] | s ts e v H IH
                 | s1 ts1 e1 v1 s2 ts2 e2 v2 H1 [[c [s' [E Hc]]] IHa] H2 [_ IHb]
                 | s ts e v H IH
                 | s1 ts1 e1 v1 s2 ts2 e2 v2 H1 [[c [s' [E Hc]]] IHa] H2 [_ IHb]
                 | s1 ts1 e1 v1 s2 ts2 e2 v2 H1 [[c [s' [E Hc]]] IHa] H2 [_ IHb]].
  - split.
    + destruct ds as [|c ds]; [easy|]. exists c, ds. split; [reflexivity|].
      simpl in Hd. apply andb_true_iff in Hd as [Hd _]. now apply digit_not_star.
    + rewrite forallb_forall in *. intros c Hin. apply digit_arith. now apply Hd.
  - split; [now eexists _, _|]. simpl. rewrite forallb_app, IH2. reflexivity.
  - split; [now eexists _, _|]. simpl. now rewrite IH2.
  - split; [now eexists _, _|]. simpl. now rewrite IH2.
  - exact IH.
  - subst s1. split; [now eexists _, _|]. rewrite !forallb_app, IHa, IHb. reflexivity.
  - exact IH.
  - subst s1. split; [now eexists _, _|]. rewrite !forallb_app, IHa, IHb. reflexivity.
  - subst s1. split; [now eexists _, _|]. rewrite !forallb_app, IHa, IHb. reflexivity.
Qed.

(** Scanning a phrase yields its tokens, whatever follows it. *)
Lemma Phrase_lex l s ts e v :
  Phrase l s ts e v ->
  forall tail, tail_ok tail = true ->
  lex LStart (s ++ tail) = (later <- lex LStart tail ;; ret (ts ++ later)).
Proof.
  induction 1 as [ds Hne Hd Hok | s ts e v H IH | s ts e v H IH
                 | s ts e v H IH | s ts e v H IH
                 | s1 ts1 e1 v1 s2 ts2 e2 v2 H1 IH1 H2 IH2
                 | s ts e v H IH
                 | s1 ts1 e1 v1 s2 ts2 e2 v2 H1 IH1 H2 IH2
                 | s1 ts1 e1 v1 s2 ts2 e2 v2 H1 IH1 H2 IH2]; intros tail Ht.
  - destruct ds as [|d ds]; [easy|]. simpl in Hd.
    apply andb_true_iff in Hd as [Hd Hds].
    change ((d :: ds) ++ tail) with (d :: (ds ++ tail)).
    rewrite lex_cons. simpl. unfold start. rewrite Hd. simpl.
    rewrite (lex_int ds [d] tail Hds Ht Hok). simpl.
    destruct (lex LStart tail) as [[later|err]|]; reflexivity.
  - rewrite <- !app_assoc. change (chars "(" ++ s ++ chars ")" ++ tail)
      with ("("%char :: (s ++ ")"%char :: tail)).
    rewrite lex_cons. simpl. rewrite (IH (")"%char :: tail) eq_refl).
    rewrite lex_cons. simpl.
    destruct (lex LStart tail) as [[later|err]|]; simpl; [|reflexivity..].
    now rewrite <- app_assoc.
  - change ((chars "-" ++ s) ++ tail) with ("-"%char :: (s ++ tail)).
    rewrite lex_cons. simpl. rewrite (IH tail Ht).
    destruct (lex LStart tail) as [[later|err]|]; reflexivity.
  - change ((chars "+" ++ s) ++ tail) with ("+"%char :: (s ++ tail)).
    rewrite lex_cons. simpl. rewrite (IH tail Ht).
    destruct (lex LStart tail) as [[later|err]|]; reflexivity.
  - now apply IH.
  - rewrite <- !app_assoc. rewrite (IH1 (chars "*" ++ s2 ++ tail) eq_refl).
    change (chars "*" ++ s2 ++ tail) with ("*"%char :: (s2 ++ tail)).
    rewrite lex_cons. simpl.
    destruct (proj1 (Phrase_text _ _ _ _ _ H2)) as (c & s' & -> & Hc).
    change ((c :: s') ++ tail) with (c :: (s' ++ tail)).
    rewrite (lex_star c _ Hc).
    change (c :: (s' ++ tail)) with ((c :: s') ++ tail). rewrite (IH2 tail Ht).
    destruct (lex LStart tail) as [[later|err]|]; simpl; [|reflexivity..].
    now rewrite <- app_assoc.
  - now apply IH.
  - rewrite <- !app_assoc. rewrite (IH1 (chars "+" ++ s2 ++ tail) eq_refl).
    change (chars "+" ++ s2 ++ tail) with ("+"%char :: (s2 ++ tail)).
    rewrite lex_cons. simpl. rewrite (IH2 tail Ht).
    destruct (lex LStart tail) as [[later|err]|]; simpl; [|reflexivity..].
    now rewrite <- app_assoc.
  - rewrite <- !app_assoc. rewrite (IH1 (chars "-" ++ s2 ++ tail) eq_refl).
    change (chars "-" ++ s2 ++ tail) with ("-"%char :: (s2 ++ tail)).
    rewrite lex_cons. simpl. rewrite (IH2 tail Ht).
    destruct (lex LStart tail) as [[later|err]|]; simpl; [|reflexivity..].
    now rewrite <- app_assoc.
Qed.

(** ** Integer expressions: parsing *)

Lemma parse_sum_S f ts :
  parse_sum (S f) ts = ('(l, ts') <- parse_term f ts ;; sum_rest f l ts').
Proof. reflexivity. Qed.

Lemma parse_term_S f ts :
  parse_term (S f) ts = ('(l, ts') <- parse_factor f ts ;; term_rest f l ts').
Proof. reflexivity. Qed.

Lemma sum_rest_op f l t o ts :
  sum_op t = Some o ->
  sum_rest (S f) l (t :: ts)
  = ('(r, ts') <- parse_term f ts ;; sum_rest f (BinOp l o r) ts').
Proof. intros H. simpl. now rewrite H. Qed.

Lemma term_rest_op f l t o ts :
  term_op t = Some o ->
  term_rest (S f) l (t :: ts)
  = ('(r, ts') <- parse_factor f ts ;; term_rest f (BinOp l o r) ts').
Proof. intros H. simpl. now rewrite H. Qed.

Lemma sum_rest_done f l rest :
  after_sum rest = true -> sum_rest (S f) l rest = ret (l, rest).
Proof. destruct rest as [|[| | |[]] rest]; simpl; intros H; try discriminate; reflexivity. Qed.

Lemma term_rest_done f l rest :
  after_term rest = true -> term_rest (S f) l rest = ret (l, rest).
Proof. destruct rest as [|[| | |[]] rest]; simpl; intros H; try discriminate; reflexivity. Qed.

Lemma trailers_done f e rest :
  after_factor rest = true -> trailers (S f) e rest = ret (e, rest).
Proof. destruct rest as [|[| | |[]] rest]; simpl; intros H; try discriminate; reflexivity. Qed.

Lemma parse_power_primary f ts b rest :
  parse_primary f ts = ret (b, rest) -> after_factor rest = true ->
  parse_power (S f) ts = ret (b, rest).
Proof.
  intros H Hr. change (parse_power (S f) ts) with
    ('(b, ts) <- parse_primary f ts ;;
     match ts with
     | T_OP DOUBLESTAR :: ts' => '(e, ts2) <- parse_factor f ts' ;; ret (BinOp b Pow e, ts2)
     | _ => ret (b, ts)
     end).
  rewrite H. simpl.
  destruct rest as [|[| | |[]] rest]; simpl in *; try discriminate; reflexivity.
Qed.

Lemma parse_factor_power f t ts :
  sum_op t = None -> parse_factor (S f) (t :: ts) = parse_power f (t :: ts).
Proof. destruct t as [| | |[]]; simpl; intros H; try discriminate; reflexivity. Qed.

Lemma parse_primary_paren f t ts :
  starts_phrase t = true ->
  parse_primary (S f) (T_OP LPAR :: t :: ts)
  = ('(e, ts1) <- parse_sum f (t :: ts) ;;
     match ts1 with
     | T_OP RPAR :: ts2 => trailers f e ts2
     | T_OP COMMA :: _ => unmodelled
     | _ => raise SyntaxError
     end).
Proof. destruct t as [| | |[]]; simpl; intros H; try discriminate; reflexivity. Qed.

Lemma after_term_factor rest : after_term rest = true -> after_factor rest = true.
Proof. destruct rest as [|[| | |[]] rest]; simpl; intros H; try discriminate; reflexivity. Qed.

Lemma Phrase_tokens l s ts e v :
  Phrase l s ts e v -> exists t ts', ts = t :: ts' /\ starts_phrase t = true.
Proof.
  induction 1 as [ds Hne Hd Hok | s ts e v H IH | s ts e v H IH
                 | s ts e v H IH | s ts e v H IH
                 | s1 ts1 e1 v1 s2 ts2 e2 v2 H1 (t & ts' & -> & Ht) H2 _
                 | s ts e v H IH
                 | s1 ts1 e1 v1 s2 ts2 e2 v2 H1 (t & ts' & -> & Ht) H2 _
                 | s1 ts1 e1 v1 s2 ts2 e2 v2 H1 (t & ts' & -> & Ht) H2 _];
    try exact IH; try (now eexists _, _).
Qed.

Ltac fuel_positive fuel f :=
  destruct fuel as [|f]; [simpl in *; lia|].

Lemma Phrase_parses l s ts e v : Phrase l s ts e v -> parses l ts e.
Proof.
  induction 1 as [ds Hne Hd Hok | s ts e v H IH | s ts e v H IH
                 | s ts e v H IH | s ts e v H IH
                 | s1 ts1 e1 v1 s2 ts2 e2 v2 H1 IH1 H2 IH2
                 | s ts e v H IH
                 | s1 ts1 e1 v1 s2 ts2 e2 v2 H1 IH1 H2 IH2
                 | s1 ts1 e1 v1 s2 ts2 e2 v2 H1 IH1 H2 IH2]; simpl in *.
  - (* a numeral *)
    intros fuel rest Hf Hr.
    fuel_positive fuel f3. fuel_positive f3 f2. fuel_positive f2 f1. fuel_positive f1 f0.
    rewrite parse_factor_power by reflexivity.
    apply parse_power_primary; [|exact Hr].
    simpl. now apply trailers_done.
  - (* a sum in parentheses *)
    intros fuel rest Hf Hr. rewrite length_app in Hf. simpl in Hf.
    fuel_positive fuel f3. fuel_positive f3 f2. fuel_positive f2 f1.
    rewrite parse_factor_power by reflexivity.
    apply parse_power_primary; [|exact Hr].
    destruct (Phrase_tokens _ _ _ _ _ H) as (t & ts' & -> & Ht).
    rewrite <- app_assoc.
    change ((t :: ts') ++ [T_OP RPAR] ++ rest) with (t :: (ts' ++ T_OP RPAR :: rest)).
    rewrite (parse_primary_paren f1 t _ Ht).
    destruct (IH f1 (T_OP RPAR :: rest)) as (g & Hg & Eg); [simpl in *; lia | reflexivity |].
    fuel_positive g g'.
    change ((t :: ts') ++ T_OP RPAR :: rest) with (t :: (ts' ++ T_OP RPAR :: rest)) in Eg.
    rewrite Eg, sum_rest_done by reflexivity.
    simpl. fuel_positive f1 f0. now apply trailers_done.
  - (* unary minus *)
    intros fuel rest Hf Hr. fuel_positive fuel f.
    simpl. rewrite (IH f rest); [reflexivity | simpl in *; lia | exact Hr].
  - (* unary plus *)
    intros fuel rest Hf Hr. fuel_positive fuel f.
    simpl. rewrite (IH f rest); [reflexivity | simpl in *; lia | exact Hr].
  - (* a factor as a term *)
    intros fuel rest Hf Hr.
    destruct (Phrase_tokens _ _ _ _ _ H) as (t & ts' & -> & Ht).
    fuel_positive fuel f. exists f. split; [simpl; lia|].
    rewrite parse_term_S, (IH f rest); [reflexivity | simpl in *; lia | exact Hr].
  - (* a product *)
    intros fuel rest Hf Hr. rewrite length_app in *. simpl in Hf.
    destruct (IH1 fuel (T_OP STAR :: ts2 ++ rest)) as (f1 & Hf1 & E1);
      [lia | reflexivity |].
    fuel_positive f1 f. exists f. split; [simpl; lia|].
    rewrite <- app_assoc. simpl. rewrite E1.
    rewrite (term_rest_op f e1 (T_OP STAR) Mult) by reflexivity.
    rewrite (IH2 f rest); [reflexivity | lia | exact Hr].
  - (* a term as a sum *)
    intros fuel rest Hf Hr.
    destruct (Phrase_tokens _ _ _ _ _ H) as (t & ts' & -> & Ht).
    fuel_positive fuel f. exists f. split; [simpl; lia|].
    rewrite parse_sum_S.
    destruct (IH f rest) as (f' & Hf' & ->);
      [simpl in *; lia | now apply after_term_factor |].
    fuel_positive f' f''. now rewrite term_rest_done.
  - (* an addition *)
    intros fuel rest Hf Hr. rewrite length_app in *. simpl in Hf.
    destruct (IH1 fuel (T_OP PLUS :: ts2 ++ rest)) as (f1 & Hf1 & E1);
      [lia | reflexivity |].
    fuel_positive f1 f. exists f. split; [simpl; lia|].
    rewrite <- app_assoc. simpl. rewrite E1.
    rewrite (sum_rest_op f e1 (T_OP PLUS) Add) by reflexivity.
    destruct (IH2 f rest) as (f' & Hf' & ->); [lia | now apply after_term_factor |].
    fuel_positive f' f''. now rewrite term_rest_done.
  - (* a subtraction *)
    intros fuel rest Hf Hr. rewrite length_app in *. simpl in Hf.
    destruct (IH1 fuel (T_OP MINUS :: ts2 ++ rest)) as (f1 & Hf1 & E1);
      [lia | reflexivity |].
    fuel_positive f1 f. exists f. split; [simpl; lia|].
    rewrite <- app_assoc. simpl. rewrite E1.
    rewrite (sum_rest_op f e1 (T_OP MINUS) Sub) by reflexivity.
    destruct (IH2 f rest) as (f' & Hf' & ->); [lia | now apply after_term_factor |].
    fuel_positive f' f''. now rewrite term_rest_done.
Qed.

(** ** Integer expressions: evaluation *)

Lemma Phrase_eval globals locals l s ts e v :
  Phrase l s ts e v -> eval_expr globals locals e = ret (VInt v).
Proof.
  induction 1; simpl; try assumption; try reflexivity;
    repeat match goal with H : eval_expr _ _ _ = _ |- _ => rewrite H; clear H end;
    reflexivity.
Qed.

Lemma Phrase_tokenize l s ts e v : Phrase l s ts e v -> tokenize s = ret ts.
Proof.
  intros H. unfold tokenize.
  pose proof (Phrase_lex _ _ _ _ _ H [] eq_refl) as E.
  rewrite app_nil_r in E. rewrite E. simpl. now rewrite app_nil_r.
Qed.

Lemma Phrase_parse s ts e v : Phrase AtSum s ts e v -> parse ts = ret e.
Proof.
  intros H. unfold parse.
  pose proof (Phrase_parses _ _ _ _ _ H) as P. simpl in P.
  destruct (P (6 * List.length ts + 6)%nat []) as (f & Hf & E); [lia | reflexivity |].
  rewrite app_nil_r in E. rewrite E.
  destruct (Phrase_tokens _ _ _ _ _ H) as (t & ts' & -> & _).
  fuel_positive f f'. reflexivity.
Qed.

Lemma arith_char_facts c :
  arith_char c = true ->
  allowed_class c = true /\ modelled_char c = true /\ is_space c = false
  /\ c <> "%"%char /\ c <> "^"%char /\ c <> "_"%char /\ c <> "i"%char /\ c <> "e"%char.
Proof.
  destruct c as [[] [] [] [] [] [] [] []]; vm_compute; intros H; try discriminate H;
    repeat split; discriminate.
Qed.

Lemma arith_text_facts s c :
  forallb arith_char s = true -> In c s ->
  allowed_class c = true /\ modelled_char c = true /\ is_space c = false
  /\ c <> "%"%char /\ c <> "^"%char /\ c <> "_"%char /\ c <> "i"%char /\ c <> "e"%char.
Proof.
  intros H Hin. rewrite forallb_forall in H. apply arith_char_facts. now apply H.
Qed.

Lemma arith_text_not_unsafe s :
  forallb arith_char s = true -> unsafe_tokens s = false.
Proof.
  intros H. unfold unsafe_tokens.
  assert (P : forall needle c, In c needle ->
                (forall d, In d s -> d <> c) -> contains needle s = false).
  { intros needle c Hc Hs. destruct (contains needle s) eqn:E; [|reflexivity].
    exfalso. apply (Hs c); [|reflexivity]. now apply (contains_In needle s c E). }
  rewrite (P (chars "__") "_"%char), (P (chars "import") "i"%char),
          (P (chars "exec") "e"%char), (P (chars "eval") "e"%char);
    try reflexivity; try (simpl; tauto);
    intros d Hd; now destruct (arith_text_facts s d H Hd) as (_ & _ & _ & _ & _ & ? & ? & ?).
Qed.

(** Python's [eval] on an integer expression returns its value. *)
Lemma py_eval_Arith s v globals locals :
  Arith AtSum s v -> py_eval s globals locals = ret (VInt v).
Proof.
  intros H. destruct (Arith_Phrase _ _ _ H) as (ts & e & P).
  destruct (Phrase_text _ _ _ _ _ P) as [_ Hc].
  unfold py_eval.
  assert (Hm : forallb modelled_char s = true).
  { apply forallb_forall. intros c Hin. now apply (arith_text_facts s c Hc Hin). }
  rewrite Hm, (Phrase_tokenize _ _ _ _ _ P). simpl.
  rewrite (Phrase_parse _ _ _ _ P). simpl.
  now apply (Phrase_eval _ _ _ _ _ _ _ P).
Qed.




(** ** The evaluation environment *)

Lemma EVAL_GLOBALS_items :
  EVAL_GLOBALS = ("__builtins__"%string, VDict []) :: SAFE_MATH.
Proof. reflexivity. Qed.

Lemma starts_with_app a b s : starts_with (a ++ b) s = true -> starts_with a s = true.
Proof.
  revert s. induction a as [|c a IH]; intros s; simpl; [reflexivity|].
  destruct s as [|d s]; [discriminate|].
  intros H. apply andb_true_iff in H as [H1 H2]. rewrite H1. now apply IH.
Qed.

Lemma contains_app a b s : contains (a ++ b) s = true -> contains a s = true.
Proof.
  induction s as [|d s IH]; simpl; intros H.
  - rewrite orb_false_r in *. now apply starts_with_app in H.
  - apply orb_true_iff in H as [H|H]; apply orb_true_iff.
    + left. now apply starts_with_app in H.
    + right. now apply IH.
Qed.



(** C1. The whitelist admits the dot together with letters and the
    underscore, and the token check only refuses double underscores, so an
    attribute of a value can be named and called: [_safe_eval] on
    [(5).bit_length()] runs the method [int.bit_length] and returns 3,
    although [bit_length] is no key of [SAFE_MATH] and is no name that the
    environment resolves; likewise [pi.real] reads an attribute of a float. *)
Theorem attribute_reference_escapes_SAFE_MATH :
  (_safe_eval "(5).bit_length()" = ret (VInt 3)
   /\ (ts <- tokenize (chars "(5).bit_length()") ;; parse ts)
      = ret (Call (Attribute (Constant (VInt 5)) "bit_length") [])
   /\ dict_get SAFE_MATH "bit_length" = None
   /\ load_name EVAL_GLOBALS [] "bit_length" = raise NameError)
  /\ (_safe_eval "pi.real" = ret (VFloat math_pi)
      /\ (ts <- tokenize (chars "pi.real") ;; parse ts) = ret (Attribute (Name "pi") "real")
      /\ dict_get SAFE_MATH "real" = None).
Proof. repeat split. Qed.

(** ** The commit action *)

Lemma safe_eval_raises_ValueError s e :
  safe_eval s = raise e -> exists msg, e = ValueError msg.
Proof.
  intros H. unfold safe_eval in H.
  destruct (safe_eval_cases py_eval s) as [(v & E & _)|[E|[E|[E|E]]]];
    rewrite E in H; try discriminate; injection H as <-; eexists; reflexivity.
Qed.

Lemma safe_eval_returns_number s v :
  safe_eval s = ret v -> is_int_or_float v = true.
Proof.
  intros H. unfold safe_eval in H.
  destruct (safe_eval_cases py_eval s) as [(w & E & Hw)|[E|[E|[E|E]]]];
    rewrite E in H; try discriminate. now injection H as <-.
Qed.

Lemma int_of_float_integer x :
  float_is_integer x = true -> exists z, int_of_float x = ret z.
Proof.
  unfold float_is_integer, int_of_float.
  destruct (Prim2SF x); try discriminate; intros _; eexists; reflexivity.
Qed.


Example commit_of_a_sum (float_str : float -> text) (round10 : float -> float) :
  _eval float_str round10 (mk_calculator (chars "1+2") [] [] [])
  = Some (Return tt, mk_calculator (chars "3") (chars "3") (chars "3") []).
Proof. reflexivity. Qed.

Example commit_of_a_quotient_by_zero (float_str : float -> text) (round10 : float -> float) :
  _eval float_str round10 (mk_calculator (chars "1/0") [] [] [])
  = Some (Return tt, mk_calculator (chars "1/0") [] []
                                   [("Error", "Invalid expression")]%string).
Proof. reflexivity. Qed.

Example commit_of_an_integral_float (float_str : float -> text) (round10 : float -> float) :
  _eval float_str round10 (mk_calculator (chars "200%") [] [] [])
  = Some (Return tt, mk_calculator (chars "2") (chars "2") (chars "2") []).
Proof. reflexivity. Qed.
